(** * The scene manager of the game client

    A shallow embedding of [SceneManager] (systems/SceneManager.ts) and of
    the part of [BaseScene] (scenes/BaseScene.ts) it relies on.

    [loadScene] is an [async] method: it runs synchronously up to its
    first [await], is suspended there, and is resumed by the event loop.
    The embedding keeps the suspended invocation as an explicit frame
    ([in_flight]) and splits the method body at its [await]s; every
    synchronous segment is a computation in a small state-and-output
    monad over the [World] the manager lives in. Other calls to the manager
    can only be observed between two segments, as in the single-threaded
    run time of the source.

    What is idealised:
    - numbers ([transitionDuration], [alpha], [deltaTime]) are rationals;
      [Date.now()] is an integer read from an arbitrary clock;
    - a scene is known by its class and its container; its hooks
      ([load()], [unload()], its constructor) are seen through their
      outcome, and through the one thing a hook of the repository does to
      what the manager looks at: [BaseScene.unload()] destroys the scene's
      container, which takes it off the stage. Whether and when an
      [unload()] gets there is up to the scene ([MenuScene] and [QuizScene]
      end with [super.unload()], [OverworldScene] does not call it), so it
      is an event of its own. The containers' [alpha] is written by the
      manager alone;
    - of PIXI, [addChild], [removeChild] and the default [alpha] of a new
      container (1) are modelled as its documentation gives them.

    Around the manager, the file also embeds what calls it and what its
    callers rely on: [Game] (Game.ts), the environment (config/env.ts), the
    player store (state/playerStore.ts), the API client, the authentication
    service and store (api/ApiClient.ts, api/AuthService.ts,
    state/authStore.ts), the asset loader (game/systems/AssetLoader.ts), the
    bookkeeping of the quiz scene (scenes/QuizScene.ts), the animated player
    (game/entities/AnimatedPlayer.ts) and the state of the game engine
    (game/GameEngine.ts). There a request, a load or a login is followed to
    its end for a given answer of the network; a response body is [null] or
    a value with the properties of its declared type; numbers of points,
    coins and identifiers are integers, and what is proved of their sums
    is proved for JavaScript's safe integers, on which the arithmetic of
    the source is the arithmetic of the integers. *)

From Stdlib Require Import ZArith QArith String List Lia.
From stdpp Require Import base option list gmap strings.
Import ListNotations.

Local Open Scope list_scope.

(** ** Data *)

(** A [PIXI.Container] is a mutable object shared between the scene that
    owns it and the stage it is attached to: it is modelled by its
    identity, its [alpha] lives in the [World]. *)
Definition Container := nat.

(** A scene class (a constructor registered under a name). *)
Definition SceneClass := string.

(** A thrown value. *)
Inductive Thrown :=
| JsError (message : string).

(** A scene instance: the class that constructed it and the container the
    [BaseScene] constructor allocated for it. *)
Record Scene := mkScene {
  scene_class : SceneClass;
  container : Container
}.

(** What the manager does to its collaborators, in the order it does it. *)
Inductive Action :=
| ConsoleWarn
| ConsoleLog (name : string)
| ConsoleError (name : string) (error : Thrown)
| SetAlpha (c : Container) (a : Q)
| Unload (s : Scene)
| RemoveChild (c : Container)
| New (cls : SceneClass)
| Load (s : Scene)
| AddChild (c : Container)
| Update (s : Scene) (deltaTime : Q).

(** The [await] (or pending animation frame) at which an invocation of
    [loadScene] is suspended. *)
Inductive Point :=
| FadeOutFrame (c : Container) (startAlpha : Q) (startTime : Z)
| FadeOutAwait
| UnloadAwait
| LoadAwait (newScene : Scene)
| FadeInFrame (newScene : Scene) (startTime : Z)
| FadeInAwait (newScene : Scene).

(** The suspended invocation: its arguments, the class looked up on entry
    and the point it waits at. *)
Record Frame := mkFrame {
  fr_name : string;
  fr_SceneClass : SceneClass;
  fr_duration : Q;
  fr_point : Point
}.

(** The state of the promise returned by [loadScene]. *)
Inductive Completion :=
| Pending
| Resolved
| Rejected (error : Thrown).

(** The manager's fields, the part of the PIXI display tree it touches,
    and the suspended invocation. *)
Record World := mkWorld {
  currentScene : option Scene;
  scenes : gmap string SceneClass;
  isTransitioning : bool;
  stage : list Container;
  alpha : gmap Container Q;
  allocated : nat;
  constructions : nat;
  clock_reads : nat;
  in_flight : option Frame
}.

(** What wakes a suspended invocation up. *)
Inductive Wake :=
| AnimationFrame
| Microtask
| Settle (rejection : option Thrown).

(** What can happen to the manager between two suspensions: a call from
    outside, the wake-up of the invocation in flight, and the scene whose
    [unload()] is awaited getting to [BaseScene.unload()]. *)
Inductive Event :=
| CallLoadScene (name : string) (transitionDuration : Q)
| CallRegisterScene (name : string) (cls : SceneClass)
| CallUpdate (deltaTime : Q)
| Resume (wake : Wake)
| BaseSceneUnload.

(** ** The monad of a synchronous segment *)

Definition M (A : Type) : Type := World -> A * World * list Action.

Definition ret {A} (a : A) : M A := fun w => (a, w, []).

Definition bind {A B} (m : M A) (k : A -> M B) : M B :=
  fun w =>
    let '(a, w1, o1) := m w in
    let '(b, w2, o2) := k a w1 in
    (b, w2, o1 ++ o2).

Notation "x <- m ;; k" := (bind m (fun x => k))
  (at level 100, m at next level, right associativity).
Notation "m ;;; k" := (bind m (fun _ => k))
  (at level 100, right associativity).

Definition get {A} (f : World -> A) : M A := fun w => (f w, w, []).
Definition modify (f : World -> World) : M unit := fun w => (tt, f w, []).
Definition emit (a : Action) : M unit := fun w => (tt, w, [a]).

Definition value {A} (r : A * World * list Action) : A := fst (fst r).
Definition world {A} (r : A * World * list Action) : World := snd (fst r).
Definition actions {A} (r : A * World * list Action) : list Action := snd r.

(** Field assignments. *)
Definition set_currentScene (s : option Scene) (w : World) : World :=
  mkWorld s (scenes w) (isTransitioning w) (stage w) (alpha w)
          (allocated w) (constructions w) (clock_reads w) (in_flight w).
Definition set_scenes (t : gmap string SceneClass) (w : World) : World :=
  mkWorld (currentScene w) t (isTransitioning w) (stage w) (alpha w)
          (allocated w) (constructions w) (clock_reads w) (in_flight w).
Definition set_isTransitioning (b : bool) (w : World) : World :=
  mkWorld (currentScene w) (scenes w) b (stage w) (alpha w)
          (allocated w) (constructions w) (clock_reads w) (in_flight w).
Definition set_stage (l : list Container) (w : World) : World :=
  mkWorld (currentScene w) (scenes w) (isTransitioning w) l (alpha w)
          (allocated w) (constructions w) (clock_reads w) (in_flight w).
Definition set_alpha (m : gmap Container Q) (w : World) : World :=
  mkWorld (currentScene w) (scenes w) (isTransitioning w) (stage w) m
          (allocated w) (constructions w) (clock_reads w) (in_flight w).
Definition set_allocated (n : nat) (w : World) : World :=
  mkWorld (currentScene w) (scenes w) (isTransitioning w) (stage w) (alpha w)
          n (constructions w) (clock_reads w) (in_flight w).
Definition set_constructions (n : nat) (w : World) : World :=
  mkWorld (currentScene w) (scenes w) (isTransitioning w) (stage w) (alpha w)
          (allocated w) n (clock_reads w) (in_flight w).
Definition set_clock_reads (n : nat) (w : World) : World :=
  mkWorld (currentScene w) (scenes w) (isTransitioning w) (stage w) (alpha w)
          (allocated w) (constructions w) n (in_flight w).
Definition set_in_flight (f : option Frame) (w : World) : World :=
  mkWorld (currentScene w) (scenes w) (isTransitioning w) (stage w) (alpha w)
          (allocated w) (constructions w) (clock_reads w) f.

(** ** The display tree *)

(** [children.splice(children.indexOf(c), 1)], nothing when [c] is no child. *)
Fixpoint without (c : Container) (l : list Container) : list Container :=
  match l with
  | [] => []
  | x :: l' => if Nat.eqb x c then l' else x :: without c l'
  end.

(** [app.stage.removeChild(c)] *)
Definition removeChild (c : Container) : M unit :=
  emit (RemoveChild c) ;;;
  modify (fun w => set_stage (without c (stage w)) w).

(** [app.stage.addChild(c)]: the child ends up last. *)
Definition addChild (c : Container) : M unit :=
  emit (AddChild c) ;;;
  modify (fun w => set_stage (without c (stage w) ++ [c]) w).

(** [c.alpha = a] *)
Definition assign_alpha (c : Container) (a : Q) : M unit :=
  emit (SetAlpha c a) ;;;
  modify (fun w => set_alpha (<[c := a]> (alpha w)) w).

(** [c.alpha]; a container that was never assigned has PIXI's default, 1. *)
Definition read_alpha (c : Container) : M Q :=
  get (fun w => default 1%Q (alpha w !! c)).

(** [Math.min(x, 1)] *)
Definition min1 (x : Q) : Q := if Qle_bool 1 x then 1%Q else x.

(** [x < y] on numbers *)
Definition Qltb (x y : Q) : bool := negb (Qle_bool y x).

(** ** A sample environment

    A clock that advances by 100 ms at every reading, constructors that
    never throw, and the start of a session: two scenes are registered, the
    menu is loaded without a fade ([menu_loading] stops while its [load()]
    is awaited), then the overworld is asked for with the default fade
    ([leaving_menu] stops while the menu's [unload()] is awaited,
    [entering_overworld] in the middle of the fade-in). *)
Definition sample_clock (k : nat) : Z := (Z.of_nat k * 100)%Z.

Definition sample_constructors (k : nat) (cls : SceneClass) : option Thrown :=
  None.

Definition menu_loading : list Event :=
  [CallRegisterScene "menu" "MenuScene";
   CallRegisterScene "overworld" "OverworldScene";
   CallLoadScene "menu" 0].

Definition menu_shown : list Event :=
  menu_loading ++ [Resume (Settle None)].

Definition leaving_menu : list Event :=
  menu_shown ++
  [CallLoadScene "overworld" 300;
   Resume AnimationFrame; Resume AnimationFrame; Resume Microtask].

Definition entering_overworld : list Event :=
  leaving_menu ++ [Resume (Settle None); Resume (Settle None)].

(** ** The environment (config/env.ts) *)

Module Env.

(** A string is truthy when it is not empty. *)
Definition truthy (s : string) : bool :=
  match s with
  | EmptyString => false
  | String _ _ => true
  end.

(** [v || d], for a variable of [import.meta.env] that is a string or
    undefined. *)
Definition or_default (v : option string) (d : string) : string :=
  match v with
  | Some s => if truthy s then s else d
  | None => d
  end.

(** The fields of [ENV] that [validateEnv] decides on. *)
Record ENV := mkENV {
  API_URL : string;
  DEBUG : bool
}.

(** [ENV], from [VITE_API_URL] and [VITE_GAME_DEBUG]. *)
Definition load (VITE_API_URL VITE_GAME_DEBUG : option string) : ENV :=
  {| API_URL := or_default VITE_API_URL "http://localhost:8000";
     DEBUG := match VITE_GAME_DEBUG with
              | Some s => String.eqb s "true"
              | None => false
              end |}.

Definition newline : string := String (Ascii.ascii_of_nat 10) EmptyString.

(** [errors.join('\n')] *)
Fixpoint join (l : list string) : string :=
  match l with
  | [] => EmptyString
  | [s] => s
  | s :: l' => (s ++ newline ++ join l')%string
  end.

(** [validateEnv()]: what it throws, if anything. *)
Definition validateEnv (env : ENV) : option Thrown :=
  let errors :=
    if truthy (API_URL env) then []
    else ["VITE_API_URL is required. Check your .env file."%string] in
  if (0 <? length errors)%nat then
    Some (JsError ("Environment configuration invalid:" ++ newline ++
                   join errors)%string)
  else None.

End Env.

(** ** The player store (state/playerStore.ts) *)

Module PlayerStore.

(** [GAME_CONFIG.XP_PER_LEVEL] (config/constants.ts) *)
Definition XP_PER_LEVEL : Z := 1000.

(** [PlayerProfile] (api/types.ts); numbers are integers. *)
Record PlayerProfile := mkProfile {
  id : Z;
  user_id : Z;
  username : string;
  name : string;
  trainer_name : string;
  level : Z;
  experience_points : Z;
  coins : Z;
  current_region_id : option Z
}.

(** The state of the store; a Siblon is known by its id. *)
Record PlayerState := mkState {
  profile : option PlayerProfile;
  party : list Z;
  collection : list Z;
  isLoading : bool;
  error : option string
}.

Definition initial : PlayerState := mkState None [] [] false None.

(** [set({ profile })] *)
Definition set_profile (p : option PlayerProfile) (st : PlayerState)
  : PlayerState :=
  mkState p (party st) (collection st) (isLoading st) (error st).

(** [setProfile(profile)] *)
Definition setProfile (p : PlayerProfile) (st : PlayerState) : PlayerState :=
  set_profile (Some p) st.

(** [addExperience(xp)] *)
Definition addExperience (xp : Z) (st : PlayerState) : PlayerState :=
  match profile st with
  | None => st
  | Some p =>
      let newXP := (experience_points p + xp)%Z in
      let newLevel := (newXP / XP_PER_LEVEL + 1)%Z in
      set_profile
        (Some (mkProfile (id p) (user_id p) (username p) (name p)
                         (trainer_name p) (Z.max (level p) newLevel) newXP
                         (coins p) (current_region_id p)))
        st
  end.

(** [addCoins(coins)] *)
Definition addCoins (c : Z) (st : PlayerState) : PlayerState :=
  match profile st with
  | None => st
  | Some p =>
      set_profile
        (Some (mkProfile (id p) (user_id p) (username p) (name p)
                         (trainer_name p) (level p) (experience_points p)
                         (coins p + c)%Z (current_region_id p)))
        st
  end.

(** [clearPlayerData()] *)
Definition clearPlayerData (st : PlayerState) : PlayerState :=
  mkState None [] [] (isLoading st) None.

(** The level a total of experience points stands for. *)
Definition level_for (xp : Z) : Z := (xp / XP_PER_LEVEL + 1)%Z.

(** The numbers of the source are IEEE doubles. On the doubles that are
    integers its arithmetic is that of the integers followed by a rounding
    to 53 significant bits, to the nearest and to the even one of two
    nearest. [round_to_even q r d] is the integer nearest to [q + r / d],
    for [0 <= r < d]. *)
Definition round_to_even (q r d : Z) : Z :=
  (if 2 * r <? d then q
   else if d <? 2 * r then q + 1
   else if Z.even q then q else q + 1)%Z.

(** [a + b] *)
Definition number_add (a b : Z) : Z :=
  (let n := a + b in
   let e := Z.log2 (Z.abs n) - 52 in
   if e <=? 0 then n
   else Z.sgn n *
        (round_to_even (Z.abs n / 2 ^ e) (Z.abs n mod 2 ^ e) (2 ^ e) * 2 ^ e))%Z.

(** [Math.floor(n / d)], for a positive [d]: the quotient is rounded to a
    double, with the exponent [e] of its last bit, before the floor is
    taken. *)
Definition floor_quotient (n d : Z) : Z :=
  (if n =? 0 then 0
   else
     let a := Z.abs n in
     let k := Z.log2 a - Z.log2 d in
     let l := if (if 0 <=? k then d * 2 ^ k <=? a else d <=? a * 2 ^ (- k))
              then k else k - 1 in
     let e := l - 52 in
     let num := if 0 <=? e then a else a * 2 ^ (- e) in
     let den := if 0 <=? e then d * 2 ^ e else d in
     let m := round_to_even (num / den) (num mod den) den in
     if 0 <=? e then Z.sgn n * (m * 2 ^ e) else (Z.sgn n * m) / 2 ^ (- e))%Z.

(** [Number.isSafeInteger(n)], for an integer. Where the numbers are safe
    the integers of this model are the doubles of the source: the sum of
    two numbers is the sum of the integers, and [Math.floor(n / 1000)] is
    their quotient. *)
Definition safe (n : Z) : Prop := (- 2 ^ 53 < n < 2 ^ 53)%Z.

End PlayerStore.

(** ** The API client (api/ApiClient.ts) *)

Module ApiClient.

(** [STORAGE_KEYS.AUTH_TOKEN] (config/constants.ts) *)
Definition AUTH_TOKEN : string := "siblo_auth_token".

(** [User] (api/types.ts) *)
Record User := mkUser {
  user_id : Z;
  user_username : string;
  user_name : string;
  user_email : string
}.

(** What the client and its callers read of a response body that is not
    [null]: [message] and [errors] are undefined when the body has no such
    property. *)
Record Data := mkData {
  message : option string;
  errors : option (gmap string (list string));
  token_field : string;
  user_field : User
}.

(** What [response.json()] gives: [null], of which no property can be read,
    or another value. *)
Inductive Parsed :=
| Null
| Object (data : Data).

(** The message of the [TypeError] for [null.property], in the words of
    V8. *)
Definition null_read (property : string) : string :=
  ("Cannot read properties of null (reading '" ++ property ++ "')")%string.

(** The client's [token] field and the browser's [localStorage]. *)
Record State := mkState {
  token : option string;
  localStorage : gmap string string
}.

(** [setToken(token)] *)
Definition setToken (t : string) (st : State) : State :=
  mkState (Some t) (<[AUTH_TOKEN := t]> (localStorage st)).

(** [getToken()] *)
Definition getToken (st : State) : option string := token st.

(** [clearToken()] *)
Definition clearToken (st : State) : State :=
  mkState None (delete AUTH_TOKEN (localStorage st)).

(** [loadToken()]: [getItem] gives [null] for a missing key. *)
Definition loadToken (st : State) : State :=
  mkState (localStorage st !! AUTH_TOKEN) (localStorage st).

(** [new ApiClient()], in a browser with the given storage. *)
Definition new_ApiClient (storage : gmap string string) : State :=
  loadToken (mkState None storage).

(** The [headers] object [request] passes to [fetch]: the defaults, the
    caller's headers over them, and the authorization over both when the
    token is truthy. *)
Definition request_headers (options_headers : gmap string string)
           (st : State) : gmap string string :=
  let headers :=
    options_headers ∪
    <["Content-Type" := "application/json"%string]>
      (<["Accept" := "application/json"%string]> ∅) in
  match token st with
  | Some t =>
      if Env.truthy t then
        <["Authorization" := ("Bearer " ++ t)%string]> headers
      else headers
  | None => headers
  end.

(** A value thrown by [fetch] or by [response.json()]: an [Error] with
    its name and message, or anything else. *)
Inductive Raised :=
| ErrorNamed (name message : string)
| NotAnError.

(** What the network does with a request: [fetch] rejects, or it gives a
    response with a status, whose [json()] rejects or gives data. *)
Inductive Outcome :=
| FetchRejects (e : Raised)
| Responds (status : Z) (body : Raised + Parsed).

(** [response.ok] *)
Definition ok (status : Z) : bool := (200 <=? status)%Z && (status <=? 299)%Z.

(** How [request] ends. *)
Inductive Result :=
| Returns (data : Parsed)
| ThrowsApiError (message : string) (statusCode : Z)
                 (errors : option (gmap string (list string)))
| ThrowsError (message : string).

(** The [catch] block of [request], for what is not an [ApiError]. *)
Definition rethrow (e : Raised) : Result :=
  match e with
  | ErrorNamed name message =>
      if String.eqb name "AbortError" then
        ThrowsError "Request timeout - please check your connection"
      else ThrowsError ("Network error: " ++ message)
  | NotAnError => ThrowsError "Network error: Unknown error"
  end.

(** [request(endpoint, options)], given what the network does. For a
    status that is not ok the token is cleared on a 401 before the
    [ApiError] is built; with a [null] body building it throws a
    [TypeError] on [data.message], which the [catch] block wraps. *)
Definition request (o : Outcome) (st : State) : Result * State :=
  match o with
  | FetchRejects e => (rethrow e, st)
  | Responds status (inl e) => (rethrow e, st)
  | Responds status (inr data) =>
      if ok status then (Returns data, st)
      else
        let st' := if (status =? 401)%Z then clearToken st else st in
        match data with
        | Object d =>
            (ThrowsApiError (Env.or_default (message d) "API request failed")
                            status (errors d),
             st')
        | Null => (rethrow (ErrorNamed "TypeError" (null_read "message")), st')
        end
  end.

(** The token in memory is the stored one. *)
Definition in_sync (st : State) : Prop :=
  token st = localStorage st !! AUTH_TOKEN.

End ApiClient.

(** ** The authentication service (api/AuthService.ts) *)

Module AuthService.
Import ApiClient.

(** [login(credentials)] and [register(data)]: the token of the response
    is stored in the client; reading it of a [null] response throws. *)
Definition login (o : Outcome) (st : State) : Result * State :=
  match request o st with
  | (Returns (Object response), st') =>
      (Returns (Object response), setToken (token_field response) st')
  | (Returns Null, st') => (ThrowsError (null_read "token"), st')
  | r => r
  end.

(** [logout()]: the token is cleared once the request has succeeded. *)
Definition logout (o : Outcome) (st : State) : Result * State :=
  match request o st with
  | (Returns response, st') => (Returns response, clearToken st')
  | r => r
  end.

(** [isAuthenticated()] *)
Definition isAuthenticated (st : State) : bool :=
  match getToken st with
  | Some _ => true
  | None => false
  end.

End AuthService.

(** ** The authentication store (state/authStore.ts) *)

Module AuthStore.

Record AuthState := mkAuth {
  token : option string;
  user : option ApiClient.User;
  isAuthenticated : bool;
  isLoading : bool;
  error : option string
}.

Definition initial : AuthState := mkAuth None None false false None.

(** The message of what [request] throws. *)
Definition message_of (r : ApiClient.Result) : string :=
  match r with
  | ApiClient.ThrowsApiError m _ _ | ApiClient.ThrowsError m => m
  | ApiClient.Returns _ => EmptyString
  end.

(** [login(email, password)], once the request has settled: the store
    and the client afterwards, and whether the action rethrows. *)
Definition login (o : ApiClient.Outcome) (s : AuthState) (st : ApiClient.State)
  : AuthState * ApiClient.State * bool :=
  match AuthService.login o st with
  | (ApiClient.Returns (ApiClient.Object response), st') =>
      (mkAuth (Some (ApiClient.token_field response))
              (Some (ApiClient.user_field response)) true false None,
       st', false)
  | (ApiClient.Returns ApiClient.Null, st') =>
      (mkAuth None None false false (Some (ApiClient.null_read "user")),
       st', true)
  | (r, st') =>
      (mkAuth None None false false
              (Some (Env.or_default (Some (message_of r)) "Login failed")),
       st', true)
  end.

(** [logout()]: a failure of the request is logged and the store is
    cleared all the same. *)
Definition logout (o : ApiClient.Outcome) (s : AuthState) (st : ApiClient.State)
  : AuthState * ApiClient.State :=
  let '(_, st') := AuthService.logout o st in
  (mkAuth None None false (isLoading s) None, st').

(** [loadTokenFromStorage()] *)
Definition loadTokenFromStorage (s : AuthState) (st : ApiClient.State)
  : AuthState :=
  if AuthService.isAuthenticated st then
    mkAuth (token s) (user s) true (isLoading s) (error s)
  else s.

End AuthStore.

(** ** The asset loader (game/systems/AssetLoader.ts) *)

Module AssetLoader.

(** A texture, as [PIXI.Assets.load] gives it. *)
Definition Texture := nat.

(** What the cache holds: a texture, or a spritesheet made of a texture and
    of its data (the JSON that was fetched, or none for the empty frames). *)
Inductive Asset :=
| TextureAsset (t : Texture)
| SpritesheetAsset (t : Texture) (data : option string).

(** What a call does besides the cache. *)
Inductive Effect :=
| AssetsLoad (path : string)
| Fetch (jsonPath : string)
| Parse
| ConsoleError (name : string) (e : Thrown).

(** [hasAsset(name)] *)
Definition hasAsset (name : string) (cache : gmap string Asset) : bool :=
  match cache !! name with
  | Some _ => true
  | None => false
  end.

(** [getAsset(name)] *)
Definition getAsset (name : string) (cache : gmap string Asset)
  : option Asset :=
  cache !! name.

(** [clear()] *)
Definition clear (cache : gmap string Asset) : gmap string Asset := ∅.

(** The end of a load, after its last [await]: the asset is stored and
    returned, or the failure is logged and thrown again. *)
Definition finish (name : string) (work : Thrown + Asset)
           (cache : gmap string Asset)
  : (Thrown + Asset) * gmap string Asset * list Effect :=
  match work with
  | inr a => (inr a, <[name := a]> cache, [])
  | inl e => (inl e, cache, [ConsoleError name e])
  end.

(** The end of [loadTexture(name, path)], from the moment
    [PIXI.Assets.load(path)] settles, on the cache as it is then. *)
Definition loadTexture_end (name : string) (loaded : Thrown + Texture)
           (cache : gmap string Asset)
  : (Thrown + Asset) * gmap string Asset * list Effect :=
  finish name (match loaded with
               | inr t => inr (TextureAsset t)
               | inl e => inl e
               end) cache.

(** [loadTexture(name, path)], given what [PIXI.Assets.load(path)] does,
    when nothing else touches the cache meanwhile. *)
Definition loadTexture (name path : string) (loaded : Thrown + Texture)
           (cache : gmap string Asset)
  : (Thrown + Asset) * gmap string Asset * list Effect :=
  match cache !! name with
  | Some a => (inr a, cache, [])
  | None =>
      let '(r, cache', eff) := loadTexture_end name loaded cache in
      (r, cache', AssetsLoad path :: eff)
  end.

(** The body of the [try] block of [loadSpriteSheet]: what it loads,
    fetches and parses, and the spritesheet or the first failure. *)
Definition sheet_work (imagePath : string) (jsonPath : option string)
           (loaded : Thrown + Texture) (json : Thrown + string)
           (parsed : option Thrown)
  : (Thrown + Asset) * list Effect :=
  match loaded with
  | inl e => (inl e, [AssetsLoad imagePath])
  | inr t =>
      match jsonPath with
      | Some p =>
          if Env.truthy p then
            match json with
            | inl e => (inl e, [AssetsLoad imagePath; Fetch p])
            | inr data =>
                match parsed with
                | Some e => (inl e, [AssetsLoad imagePath; Fetch p; Parse])
                | None => (inr (SpritesheetAsset t (Some data)),
                           [AssetsLoad imagePath; Fetch p; Parse])
                end
            end
          else (inr (SpritesheetAsset t None), [AssetsLoad imagePath])
      | None => (inr (SpritesheetAsset t None), [AssetsLoad imagePath])
      end
  end.

(** [loadSpriteSheet(name, imagePath, jsonPath)] *)
Definition loadSpriteSheet (name imagePath : string) (jsonPath : option string)
           (loaded : Thrown + Texture) (json : Thrown + string)
           (parsed : option Thrown) (cache : gmap string Asset)
  : (Thrown + Asset) * gmap string Asset * list Effect :=
  match cache !! name with
  | Some a => (inr a, cache, [])
  | None =>
      let '(work, eff) := sheet_work imagePath jsonPath loaded json parsed in
      let '(r, cache', eff') := finish name work cache in
      (r, cache', eff ++ eff')
  end.

(** [loadMultiple(assets)]: every load is started, and so looks its name
    up in the cache, before any of them ends. [pending] are the names that
    were not found, once each time they were asked for. *)
Definition pending (names : list string) (cache : gmap string Asset)
  : list string :=
  List.filter (fun n => negb (hasAsset n cache)) names.

(** The loads that were started end in some order, each with its result. *)
Fixpoint complete (ends : list (string * (Thrown + Asset)))
         (cache : gmap string Asset) : gmap string Asset :=
  match ends with
  | [] => cache
  | (n, work) :: ends' => complete ends' (snd (fst (finish n work cache)))
  end.

(** [Promise.all] is fulfilled when no load failed. *)
Definition all_fulfilled (ends : list (string * (Thrown + Asset))) : bool :=
  forallb (fun nw => match snd nw with inr _ => true | inl _ => false end) ends.

End AssetLoader.

(** ** The quiz scene (scenes/QuizScene.ts): its bookkeeping *)

Module QuizScene.

(** What the bookkeeping reads of a [QuizQuestion]. *)
Record Question := mkQuestion {
  q_id : Z;
  q_points : Z
}.

(** [selected.includes(choiceId)] *)
Definition includes (c : Z) (l : list Z) : bool :=
  existsb (Z.eqb c) l.

(** [handleChoiceSelect(questionId, choiceId, isMultipleCorrect)], on
    [selectedAnswers] *)
Definition handleChoiceSelect (questionId choiceId : Z)
           (isMultipleCorrect : bool) (selectedAnswers : gmap Z (list Z))
  : gmap Z (list Z) :=
  let selected := default [] (selectedAnswers !! questionId) in
  let selected' :=
    if isMultipleCorrect then
      if includes choiceId selected then
        List.filter (fun id => negb (id =? choiceId)%Z) selected
      else selected ++ [choiceId]
    else [choiceId] in
  <[questionId := selected']> selectedAnswers.

(** A sequence of clicks on choices. *)
Fixpoint clicks (cs : list (Z * Z * bool)) (selectedAnswers : gmap Z (list Z))
  : gmap Z (list Z) :=
  match cs with
  | [] => selectedAnswers
  | (q, c, multi) :: cs' => clicks cs' (handleChoiceSelect q c multi selectedAnswers)
  end.

(** No list of [selectedAnswers] holds a choice twice. *)
Definition no_duplicates (m : gmap Z (list Z)) : Prop :=
  forall q l, m !! q = Some l -> List.NoDup l.

(** [goToPreviousQuestion()], on [currentQuestionIndex] *)
Definition goToPreviousQuestion (index : Z) : Z :=
  if (0 <? index)%Z then (index - 1)%Z else index.

(** [goToNextQuestion()] *)
Definition goToNextQuestion (quizData : option (list Question)) (index : Z)
  : Z :=
  match quizData with
  | Some questions =>
      if (index <? Z.of_nat (length questions) - 1)%Z then (index + 1)%Z
      else index
  | None => index
  end.

(** A sequence of clicks on the navigation buttons: [true] for next. *)
Fixpoint navigate (quizData : option (list Question)) (bs : list bool)
         (index : Z) : Z :=
  match bs with
  | [] => index
  | true :: bs' => navigate quizData bs' (goToNextQuestion quizData index)
  | false :: bs' => navigate quizData bs' (goToPreviousQuestion index)
  end.

(** The filter of [handleSubmit]: a question is unanswered when it has no
    entry or an empty one. *)
Definition unanswered (selectedAnswers : gmap Z (list Z)) (q : Question)
  : bool :=
  match selectedAnswers !! q_id q with
  | None => true
  | Some l => (length l =? 0)%nat
  end.

(** What [handleSubmit()] decides before it submits anything. *)
Inductive Decision :=
| Blocked
| ShowsUnanswered (unansweredCount : nat)
| Submits.

Definition handleSubmit (isLoading : bool) (quizData : option (list Question))
           (attemptId : option Z) (selectedAnswers : gmap Z (list Z))
  : Decision :=
  match quizData, attemptId with
  | Some questions, Some a =>
      if isLoading || (a =? 0)%Z then Blocked
      else
        let unansweredCount :=
          length (List.filter (unanswered selectedAnswers) questions) in
        if (0 <? unansweredCount)%nat then ShowsUnanswered unansweredCount
        else Submits
  | _, _ => Blocked
  end.

(** The rewards of a result, as [handleSubmit()] gives them to the player
    store. *)
Definition give_rewards (experience_points coins : Z)
           (st : PlayerStore.PlayerState) : PlayerStore.PlayerState :=
  let st1 :=
    if (0 <? experience_points)%Z then
      PlayerStore.addExperience experience_points st
    else st in
  if (0 <? coins)%Z then PlayerStore.addCoins coins st1 else st1.

End QuizScene.

(** ** The animated player (game/entities/AnimatedPlayer.ts) *)

Module AnimatedPlayer.

(** [Math.max(a, b)] and [Math.min(a, b)] on numbers *)
Definition max (a b : Q) : Q := if Qle_bool a b then b else a.
Definition min (a b : Q) : Q := if Qle_bool a b then a else b.

(** [Math.abs(a)] *)
Definition abs (a : Q) : Q := if Qle_bool 0 a then a else (- a)%Q.

(** The player: the position and the horizontal scale of its sprite, and
    its own fields; an animation is known by its name. *)
Record Player := mkPlayer {
  x : Q;
  y : Q;
  scale_x : Q;
  speed : Q;
  animations : gset string;
  currentAnimation : string;
  lastDirection : Z
}.

(** [playAnimation(name)] *)
Definition playAnimation (name : string) (p : Player) : Player :=
  if negb (bool_decide (name ∈ animations p))
     || String.eqb (currentAnimation p) name
  then p
  else mkPlayer (x p) (y p) (scale_x p) (speed p) (animations p) name
                (lastDirection p).

(** [keys[a] || keys[b]] *)
Definition pressed (keys : string -> bool) (a b : string) : bool :=
  keys a || keys b.

(** [update(deltaTime, keys, screenWidth, screenHeight)]; [width] is the
    width of the sprite when the bounds are applied. *)
Definition update (keys : string -> bool) (screenWidth screenHeight : Q)
           (width : Q) (p : Player) : Player :=
  let left := pressed keys "ArrowLeft" "a" in
  let right := pressed keys "ArrowRight" "d" in
  let up := pressed keys "ArrowUp" "w" in
  let down := pressed keys "ArrowDown" "s" in
  let p1 :=
    if left then
      mkPlayer (x p - speed p) (y p) (- abs (scale_x p)) (speed p)
               (animations p) (currentAnimation p) (-1)
    else p in
  let p2 :=
    if right then
      mkPlayer (x p1 + speed p1) (y p1) (abs (scale_x p1)) (speed p1)
               (animations p1) (currentAnimation p1) 1
    else p1 in
  let p3 :=
    if up then
      mkPlayer (x p2) (y p2 - speed p2) (scale_x p2) (speed p2)
               (animations p2) (currentAnimation p2) (lastDirection p2)
    else p2 in
  let p4 :=
    if down then
      mkPlayer (x p3) (y p3 + speed p3) (scale_x p3) (speed p3)
               (animations p3) (currentAnimation p3) (lastDirection p3)
    else p3 in
  let moving := left || right || up || down in
  let p5 :=
    if moving && bool_decide ("walk"%string ∈ animations p4) then
      playAnimation "walk" p4
    else if negb moving && bool_decide ("idle"%string ∈ animations p4) then
      let q := playAnimation "idle" p4 in
      mkPlayer (x q) (y q)
               (if (lastDirection q =? -1)%Z then (- abs (scale_x q))%Q
                else abs (scale_x q))
               (speed q) (animations q) (currentAnimation q) (lastDirection q)
    else p4 in
  let radius := (width / 2)%Q in
  mkPlayer (max radius (min (screenWidth - radius) (x p5)))
           (max radius (min (screenHeight - radius) (y p5)))
           (scale_x p5) (speed p5) (animations p5) (currentAnimation p5)
           (lastDirection p5).

End AnimatedPlayer.

(** ** The game engine (game/GameEngine.ts): its state *)

Module GameEngine.

Record GameState := mkGameState {
  score : Z;
  lives : Z;
  isRunning : bool
}.

(** The state the constructor sets. *)
Definition initial : GameState := mkGameState 0 3 true.

(** [incrementScore(points)] *)
Definition incrementScore (points : Z) (s : GameState) : GameState :=
  mkGameState (score s + points) (lives s) (isRunning s).

(** [decrementLives()] *)
Definition decrementLives (s : GameState) : GameState :=
  let lives' := (lives s - 1)%Z in
  mkGameState (score s) lives' (if (lives' <=? 0)%Z then false else isRunning s).

(** [togglePause()] *)
Definition togglePause (s : GameState) : GameState :=
  mkGameState (score s) (lives s) (negb (isRunning s)).

(** The calls the React hook makes on the engine. *)
Inductive Call :=
| IncrementScore (points : Z)
| DecrementLives
| TogglePause.

Definition call (c : Call) (s : GameState) : GameState :=
  match c with
  | IncrementScore points => incrementScore points s
  | DecrementLives => decrementLives s
  | TogglePause => togglePause s
  end.

Fixpoint calls (cs : list Call) (s : GameState) : GameState :=
  match cs with
  | [] => s
  | c :: cs' => calls cs' (call c s)
  end.

(** How many lives the calls take. *)
Fixpoint lives_taken (cs : list Call) : Z :=
  match cs with
  | [] => 0
  | DecrementLives :: cs' => (1 + lives_taken cs')%Z
  | _ :: cs' => lives_taken cs'
  end.

(** Whether the pause is toggled among the calls. *)
Fixpoint pauses (cs : list Call) : bool :=
  match cs with
  | [] => false
  | TogglePause :: _ => true
  | _ :: cs' => pauses cs'
  end.

End GameEngine.

Section Manager.

(** The environment the manager runs in: the [k]-th reading of
    [Date.now()], and whether the [k]-th [new SceneClass(app, this)]
    throws. *)
Variable Date_now : nat -> Z.
Variable constructor_throws : nat -> SceneClass -> option Thrown.

Definition now : M Z :=
  k <- get clock_reads ;;
  modify (set_clock_reads (S k)) ;;;
  ret (Date_now k).

(** The constructor of [BaseScene]: [this.container = new PIXI.Container()]. *)
Definition new_scene (cls : SceneClass) : M (Thrown + Scene) :=
  emit (New cls) ;;;
  k <- get constructions ;;
  modify (set_constructions (S k)) ;;;
  match constructor_throws k cls with
  | Some e => ret (inl e)
  | None =>
      c <- get allocated ;;
      modify (fun w => set_alpha (<[c := 1%Q]> (alpha w)) (set_allocated (S c) w)) ;;;
      ret (inr (mkScene cls c))
  end.

(** ** SceneManager *)

(** [constructor(app)] *)
Definition new_SceneManager : World :=
  mkWorld None ∅ false [] ∅ 0 0 0 None.

(** [registerScene(name, SceneClass)] *)
Definition registerScene (name : string) (cls : SceneClass) : M unit :=
  modify (fun w => set_scenes (<[name := cls]> (scenes w)) w).

(** [getCurrentScene()] *)
Definition getCurrentScene (w : World) : option Scene := currentScene w.

(** [update(deltaTime)] *)
Definition update (deltaTime : Q) : M unit :=
  cur <- get currentScene ;;
  match cur with
  | Some s => emit (Update s deltaTime)
  | None => ret tt
  end.

(** How a segment of the [try] block ends: at an [await], by falling off
    the end of the block, or by a throw. *)
Inductive Flow :=
| Suspend (p : Point)
| Finished
| Throws (e : Thrown).

(** The body of [animate] in [fadeOut]; [true] when it asked for another
    animation frame, [false] when it resolved the promise. *)
Definition animate_out (c : Container) (startAlpha : Q) (startTime : Z)
           (duration : Q) : M bool :=
  t <- now ;;
  let elapsed := (t - startTime)%Z in
  let progress := min1 (inject_Z elapsed / duration) in
  assign_alpha c (startAlpha * (1 - progress)) ;;;
  ret (Qltb progress 1).

(** [fadeOut(container, duration)], up to the promise it returns. *)
Definition fadeOut (c : Container) (duration : Q) : M Point :=
  startAlpha <- read_alpha c ;;
  startTime <- now ;;
  again <- animate_out c startAlpha startTime duration ;;
  ret (if again then FadeOutFrame c startAlpha startTime else FadeOutAwait).

(** The body of [animate] in [fadeIn]. *)
Definition animate_in (c : Container) (startTime : Z) (duration : Q) : M bool :=
  t <- now ;;
  let elapsed := (t - startTime)%Z in
  let progress := min1 (inject_Z elapsed / duration) in
  assign_alpha c progress ;;;
  ret (Qltb progress 1).

(** [fadeIn(container, duration)], up to the promise it returns. *)
Definition fadeIn (s : Scene) (duration : Q) : M Point :=
  startTime <- now ;;
  again <- animate_in (container s) startTime duration ;;
  ret (if again then FadeInFrame s startTime else FadeInAwait s).

Definition not_registered (name : string) : string :=
  let q := String (Ascii.ascii_of_nat 34) EmptyString in
  ("[SceneManager] Scene " ++ q ++ name ++ q ++ " not registered")%string.

Definition null_property : Thrown :=
  JsError "TypeError: Cannot read properties of null".

(** [console.log(`[SceneManager] Loaded scene: ${name}`)], the last
    statement of the [try] block. *)
Definition loaded (name : string) : M Flow :=
  emit (ConsoleLog name) ;;;
  ret Finished.

(** "Create and load new scene", up to [await newScene.load()]. *)
Definition create_and_load (cls : SceneClass) : M Flow :=
  r <- new_scene cls ;;
  match r with
  | inl e => ret (Throws e)
  | inr newScene =>
      emit (Load newScene) ;;;
      ret (Suspend (LoadAwait newScene))
  end.

(** After [await newScene.load()]: "Add to stage", "Fade in new scene". *)
Definition add_to_stage (name : string) (duration : Q) (newScene : Scene)
  : M Flow :=
  addChild (container newScene) ;;;
  modify (set_currentScene (Some newScene)) ;;;
  if Qltb 0 duration then
    assign_alpha (container newScene) 0 ;;;
    p <- fadeIn newScene duration ;;
    ret (Suspend p)
  else loaded name.

(** "Unload current scene", up to [await this.currentScene.unload()].
    What the scene does to its container while its [unload()] runs is
    the event [BaseSceneUnload]. *)
Definition unload_current (cls : SceneClass) : M Flow :=
  cur <- get currentScene ;;
  match cur with
  | Some s =>
      emit (Unload s) ;;;
      ret (Suspend UnloadAwait)
  | None => create_and_load cls
  end.

(** After [await this.currentScene.unload()]: detach, clear the slot and
    go on with the new scene. *)
Definition after_unload (cls : SceneClass) : M Flow :=
  cur <- get currentScene ;;
  match cur with
  | Some s =>
      removeChild (container s) ;;;
      modify (set_currentScene None) ;;;
      create_and_load cls
  | None => ret (Throws null_property)
  end.

(** "Fade out current scene", the first statement of the [try] block. *)
Definition fade_out_current (cls : SceneClass) (duration : Q) : M Flow :=
  cur <- get currentScene ;;
  match cur with
  | Some s =>
      if Qltb 0 duration then
        p <- fadeOut (container s) duration ;;
        ret (Suspend p)
      else unload_current cls
  | None => unload_current cls
  end.

(** [catch] and [finally] around a segment of the [try] block: a
    suspended segment keeps the invocation in flight; the end of the block
    and a throw both run [finally]. *)
Definition settle (name : string) (cls : SceneClass) (duration : Q)
           (segment : M Flow) : M Completion :=
  f <- segment ;;
  match f with
  | Suspend p =>
      modify (set_in_flight (Some (mkFrame name cls duration p))) ;;;
      ret Pending
  | Finished =>
      modify (set_in_flight None) ;;;
      modify (set_isTransitioning false) ;;;
      ret Resolved
  | Throws e =>
      emit (ConsoleError name e) ;;;
      modify (set_in_flight None) ;;;
      modify (set_isTransitioning false) ;;;
      ret (Rejected e)
  end.

(** [loadScene(name, transitionDuration)], up to its first suspension. *)
Definition loadScene (name : string) (transitionDuration : Q) : M Completion :=
  busy <- get isTransitioning ;;
  if busy then
    emit ConsoleWarn ;;;
    ret Resolved
  else
    table <- get scenes ;;
    match table !! name with
    | None => ret (Rejected (JsError (not_registered name)))
    | Some cls =>
        modify (set_isTransitioning true) ;;;
        settle name cls transitionDuration
               (fade_out_current cls transitionDuration)
    end.

(** [loadScene(name)]: [transitionDuration] defaults to 300. *)
Definition loadScene_default (name : string) : M Completion :=
  loadScene name 300.

(** The segment a suspended invocation runs when it is woken up; a wake
    up that is not the one it waits for leaves it where it is. *)
Definition continue (fr : Frame) (wake : Wake) : M Flow :=
  let cls := fr_SceneClass fr in
  let duration := fr_duration fr in
  match fr_point fr, wake with
  | FadeOutFrame c startAlpha startTime, AnimationFrame =>
      again <- animate_out c startAlpha startTime duration ;;
      ret (Suspend (if again then FadeOutFrame c startAlpha startTime
                    else FadeOutAwait))
  | FadeOutAwait, Microtask => unload_current cls
  | UnloadAwait, Settle None => after_unload cls
  | UnloadAwait, Settle (Some e) => ret (Throws e)
  | LoadAwait newScene, Settle None =>
      add_to_stage (fr_name fr) duration newScene
  | LoadAwait newScene, Settle (Some e) => ret (Throws e)
  | FadeInFrame newScene startTime, AnimationFrame =>
      again <- animate_in (container newScene) startTime duration ;;
      ret (Suspend (if again then FadeInFrame newScene startTime
                    else FadeInAwait newScene))
  | FadeInAwait newScene, Microtask => loaded (fr_name fr)
  | p, _ => ret (Suspend p)
  end.

(** Waking up the invocation in flight; [None] when there is none. *)
Definition resume (wake : Wake) : M (option Completion) :=
  fr <- get in_flight ;;
  match fr with
  | None => ret None
  | Some fr =>
      c <- settle (fr_name fr) (fr_SceneClass fr) (fr_duration fr)
                  (continue fr wake) ;;
      ret (Some c)
  end.

(** [BaseScene.unload()]:
    [this.container.removeChildren(); this.container.destroy({ children: true })].
    Nothing but the [unload()] the manager is awaiting calls it, so it runs
    between [this.currentScene.unload()] and the settling of its promise; a
    destroyed container leaves its parent. *)
Definition BaseScene_unload : M unit :=
  fr <- get in_flight ;;
  cur <- get currentScene ;;
  match fr, cur with
  | Some fr, Some s =>
      match fr_point fr with
      | UnloadAwait => modify (fun w => set_stage (without (container s) (stage w)) w)
      | _ => ret tt
      end
  | _, _ => ret tt
  end.

(** ** The event loop *)

(** The event loop delivers one event. The result is the state of the
    promise of the invocation in flight when the event woke it up, and
    [None] when the event was a call from outside. *)
Definition dispatch (ev : Event) : M (option Completion) :=
  match ev with
  | CallLoadScene name d => loadScene name d ;;; ret None
  | CallRegisterScene name cls => registerScene name cls ;;; ret None
  | CallUpdate dt => update dt ;;; ret None
  | Resume wake => resume wake
  | BaseSceneUnload => BaseScene_unload ;;; ret None
  end.

Definition step (ev : Event) : M unit :=
  dispatch ev ;;; ret tt.

Fixpoint run (evs : list Event) : M unit :=
  match evs with
  | [] => ret tt
  | ev :: evs' => step ev ;;; run evs'
  end.

(** The worlds the manager can be in. *)
Definition reachable (w : World) : Prop :=
  exists evs, world (run evs new_SceneManager) = w.

(** The invocation in flight, followed through the events [evs] until its
    promise settles. *)
Fixpoint await (evs : list Event) : M Completion :=
  match evs with
  | [] => ret Pending
  | ev :: evs' =>
      c <- dispatch ev ;;
      match c with
      | Some Pending | None => await evs'
      | Some c => ret c
      end
  end.

(** A whole call: [loadScene(name, transitionDuration)] and, when it is
    suspended, the events [evs] that follow it. *)
Definition transition (name : string) (transitionDuration : Q)
           (evs : list Event) : M Completion :=
  c <- loadScene name transitionDuration ;;
  match c with
  | Pending => await evs
  | _ => ret c
  end.

(** ** Invariants *)

(** What the manager's fields look like at each suspension point. *)
Definition point_ok (w : World) (fr : Frame) : Prop :=
  match fr_point fr with
  | FadeOutFrame _ _ _ | FadeOutAwait | UnloadAwait =>
      exists s, currentScene w = Some s
  | LoadAwait ns => currentScene w = None
  | FadeInFrame ns _ | FadeInAwait ns => currentScene w = Some ns
  end.

(** The stage holds nothing but the container of the active scene, and
    not even that one once the scene has destroyed it. *)
Definition one_attached (w : World) : Prop :=
  match currentScene w with
  | Some s => stage w = [container s] \/ stage w = []
  | None => stage w = []
  end.

(** The flag is set exactly when an invocation is suspended, and at most
    the active scene is attached to the stage. *)
Definition consistent (w : World) : Prop :=
  match in_flight w with
  | None => isTransitioning w = false
  | Some fr => isTransitioning w = true /\ point_ok w fr
  end /\
  one_attached w.

(** The calls the manager makes on scenes and on the stage. *)
Fixpoint lifecycle (acts : list Action) : list Action :=
  match acts with
  | [] => []
  | a :: acts' =>
      match a with
      | Unload _ | RemoveChild _ | New _ | Load _ | AddChild _ =>
          a :: lifecycle acts'
      | _ => lifecycle acts'
      end
  end.

(** The values the manager assigns to [alpha]. *)
Fixpoint opacity_writes (acts : list Action) : list (Container * Q) :=
  match acts with
  | [] => []
  | SetAlpha c a :: acts' => (c, a) :: opacity_writes acts'
  | _ :: acts' => opacity_writes acts'
  end.

(** Retiring the scene that was active when the call was made. *)
Definition retire (old : option Scene) : list Action :=
  match old with
  | Some s => [Unload s; RemoveChild (container s)]
  | None => []
  end.

(** The invocation of [loadScene(name, duration)] that found [cls] under
    [name], [old] in the active-scene slot and [a0] containers allocated
    is in flight, and has performed [acc] so far. *)
Definition serving (name : string) (cls : SceneClass) (duration : Q)
           (old : option Scene) (a0 : nat)
           (acc : list Action) (w : World) : Prop :=
  isTransitioning w = true /\ a0 <= allocated w /\
  exists p, in_flight w = Some (mkFrame name cls duration p) /\
    match p with
    | FadeOutFrame _ _ _ | FadeOutAwait =>
        currentScene w = old /\ lifecycle acc = []
    | UnloadAwait =>
        exists s, old = Some s /\ currentScene w = Some s /\
                  lifecycle acc = [Unload s]
    | LoadAwait ns =>
        scene_class ns = cls /\ a0 <= container ns /\
        alpha w !! container ns = Some 1%Q /\
        lifecycle acc = retire old ++ [New cls; Load ns]
    | FadeInFrame ns _ =>
        scene_class ns = cls /\ a0 <= container ns /\
        currentScene w = Some ns /\ In (container ns) (stage w) /\
        lifecycle acc =
          retire old ++ [New cls; Load ns; AddChild (container ns)]
    | FadeInAwait ns =>
        scene_class ns = cls /\ a0 <= container ns /\
        currentScene w = Some ns /\ In (container ns) (stage w) /\
        alpha w !! container ns = Some 1%Q /\
        lifecycle acc =
          retire old ++ [New cls; Load ns; AddChild (container ns)]
    end.

(** What that invocation leaves behind when its promise settles. *)
Definition served (cls : SceneClass) (old : option Scene) (a0 : nat)
           (c : Completion) (acc : list Action) (w : World) : Prop :=
  isTransitioning w = false /\ in_flight w = None /\
  (c = Resolved ->
   exists ns,
     currentScene w = Some ns /\ scene_class ns = cls /\
     a0 <= container ns /\ In (container ns) (stage w) /\
     alpha w !! container ns = Some 1%Q /\
     lifecycle acc =
       retire old ++ [New cls; Load ns; AddChild (container ns)]).

(** An invocation with no fade is in flight: it waits for [unload()] or
    for [load()], has assigned no [alpha] so far, and every [alpha] that
    was not there in [w0] is 1. *)
Definition unfaded (w0 : World) (acc : list Action) (w : World) : Prop :=
  isTransitioning w = true /\
  (exists fr, in_flight w = Some fr /\ Qltb 0 (fr_duration fr) = false /\
              (fr_point fr = UnloadAwait \/
               exists ns, fr_point fr = LoadAwait ns)) /\
  opacity_writes acc = [] /\
  (forall c q, alpha w !! c = Some q -> alpha w0 !! c = Some q \/ q = 1%Q).

Definition unfaded_done (w0 : World) (acc : list Action) (w : World) : Prop :=
  opacity_writes acc = [] /\
  (forall c q, alpha w !! c = Some q -> alpha w0 !! c = Some q \/ q = 1%Q).

(** Where a transition with a fade has got to with the outgoing scene:
    the container that fades out is the active scene's, and once the
    fade-out has resolved its [alpha] is 0. *)
Definition faded_out (w : World) : Prop :=
  forall fr,
    in_flight w = Some fr -> Qltb 0 (fr_duration fr) = true ->
    match fr_point fr with
    | FadeOutFrame c _ _ =>
        exists s, currentScene w = Some s /\ container s = c
    | FadeOutAwait | UnloadAwait =>
        exists s a, currentScene w = Some s /\
                    alpha w !! container s = Some a /\ (a == 0)%Q
    | _ => True
    end.

(** The manager is idle: the flag is cleared and no invocation is
    suspended. *)
Definition idle (w : World) : Prop :=
  isTransitioning w = false /\ in_flight w = None.

(** The events that carry a call without a fade to its end when every hook
    resolves: the outgoing scene's [unload()], if there is one, then the
    new scene's [load()]. *)
Definition hooks_resolve (old : option Scene) : list Event :=
  match old with
  | Some _ => [Resume (Settle None); Resume (Settle None)]
  | None => [Resume (Settle None)]
  end.

(** ** Game (Game.ts) *)

(** [SCENE_NAMES] (config/constants.ts) *)
Definition SCENE_NAMES_MENU : string := "menu".
Definition SCENE_NAMES_OVERWORLD : string := "overworld".
Definition SCENE_NAMES_BATTLE : string := "battle".
Definition SCENE_NAMES_QUIZ : string := "quiz".
Definition SCENE_NAMES_COLLECTION : string := "collection".

(** The scene classes [Game] imports. *)
Definition MenuScene : SceneClass := "MenuScene".
Definition OverworldScene : SceneClass := "OverworldScene".

(** [registerScenes()] *)
Definition registerScenes : M unit :=
  registerScene SCENE_NAMES_MENU MenuScene ;;;
  registerScene SCENE_NAMES_OVERWORLD OverworldScene.

(** [constructor()], after [validateEnv()]: a new manager on a new
    application, with the scenes registered. *)
Definition new_Game : World := world (registerScenes new_SceneManager).

(** The end of [init()]: the initial scene is chosen by the authentication
    state and loaded with the default fade. *)
Definition Game_init (isAuthenticated : bool) : M Completion :=
  let initialScene :=
    if isAuthenticated then SCENE_NAMES_OVERWORLD else SCENE_NAMES_MENU in
  loadScene_default initialScene.

(** ** Proof machinery *)

Ltac unfold_manager :=
  unfold transition, step, dispatch, resume, loadScene, settle, continue,
    fade_out_current, after_unload, unload_current, add_to_stage,
    create_and_load, loaded, fadeIn, fadeOut, animate_in, animate_out,
    new_scene, now, update, registerScene, assign_alpha, read_alpha,
    addChild, removeChild, getCurrentScene, BaseScene_unload in *.

Ltac msimpl :=
  unfold bind, ret, get, modify, emit, value, world, actions in *;
  cbn [fst snd app
       currentScene scenes isTransitioning stage alpha allocated
       constructions clock_reads in_flight
       set_currentScene set_scenes set_isTransitioning set_stage set_alpha
       set_allocated set_constructions set_clock_reads set_in_flight
       fr_name fr_SceneClass fr_duration fr_point scene_class container] in *.

Ltac atomic x :=
  lazymatch x with
  | context [match _ with _ => _ end] => fail
  | _ => idtac
  end.

Ltac split_match :=
  match goal with
  | |- context [match ?x with _ => _ end] =>
      atomic x; first [is_var x; destruct x | destruct x eqn:?]
  end.

Ltac crunch := unfold_manager; msimpl; repeat (split_match; msimpl).

Ltac break :=
  repeat match goal with
    | H : _ /\ _ |- _ => destruct H
    | H : exists _, _ |- _ => destruct H
    | H : Some _ = Some _ |- _ => injection H as H
    | |- _ /\ _ => split
    | |- forall _, _ => intro
    end;
  subst; msimpl.

Lemma min1_done (x : Q) : Qltb (min1 x) 1 = false -> min1 x = 1%Q.
Proof.
  unfold min1, Qltb. destruct (Qle_bool 1 x) eqn:E; [reflexivity|].
  rewrite E. discriminate.
Qed.

Lemma in_without_last (c : Container) (l : list Container) :
  In c (without c l ++ [c]).
Proof. apply in_or_app. right. now left. Qed.

Lemma lifecycle_app (l1 l2 : list Action) :
  lifecycle (l1 ++ l2) = lifecycle l1 ++ lifecycle l2.
Proof.
  induction l1 as [|a l1 IH]; [reflexivity|].
  destruct a; simpl; rewrite IH; reflexivity.
Qed.

Lemma opacity_writes_app (l1 l2 : list Action) :
  opacity_writes (l1 ++ l2) = opacity_writes l1 ++ opacity_writes l2.
Proof.
  induction l1 as [|a l1 IH]; [reflexivity|].
  destruct a; simpl; rewrite IH; reflexivity.
Qed.

(** *** Reachable worlds are consistent *)

Lemma new_SceneManager_consistent : consistent new_SceneManager.
Proof. split; reflexivity. Qed.

Lemma dispatch_consistent (ev : Event) (w : World) :
  consistent w -> consistent (world (dispatch ev w)).
Proof.
  unfold consistent, point_ok, one_attached. intros [Hfl Hone].
  destruct ev as [name d|name cls|dt|wake|]; crunch; break;
    repeat match goal with
      | H : currentScene _ = _ |- _ => rewrite H in *
      | H : fr_point _ = _ |- _ => rewrite H in *
      end;
    try match goal with
      | H : _ \/ _ |- _ => destruct H as [H|H]; rewrite H
      | H : stage _ = _ |- _ => rewrite H
      end;
    cbn [without app]; rewrite ?Nat.eqb_refl;
    try solve [ congruence | eauto ].
Qed.

Lemma world_step (ev : Event) (w : World) :
  world (step ev w) = world (dispatch ev w).
Proof.
  unfold step, bind, ret, world. destruct (dispatch ev w) as [[c w1] o1].
  reflexivity.
Qed.

Lemma world_run_cons (ev : Event) (evs : list Event) (w : World) :
  world (run (ev :: evs) w) = world (run evs (world (step ev w))).
Proof.
  simpl. unfold bind, world.
  destruct (step ev w) as [[u w1] o1]. simpl.
  destruct (run evs w1) as [[u' w2] o2]. reflexivity.
Qed.

Lemma run_consistent (evs : list Event) (w : World) :
  consistent w -> consistent (world (run evs w)).
Proof.
  revert w. induction evs as [|ev evs IH]; intros w Hw; [exact Hw|].
  rewrite world_run_cons. apply IH. rewrite world_step.
  now apply dispatch_consistent.
Qed.

Lemma reachable_consistent (w : World) : reachable w -> consistent w.
Proof.
  intros [evs <-]. apply run_consistent, new_SceneManager_consistent.
Qed.

Lemma reachable_step (ev : Event) (w : World) :
  reachable w -> reachable (world (step ev w)).
Proof.
  intros [evs <-]. exists (evs ++ [ev]).
  generalize new_SceneManager as w0.
  induction evs as [|e evs IH]; intros w0.
  - simpl app. rewrite world_run_cons. reflexivity.
  - simpl app. rewrite !world_run_cons. apply IH.
Qed.

(** *** Following an invocation until it settles *)

Lemma await_invariant
      (Inv : list Action -> World -> Prop)
      (Post : Completion -> list Action -> World -> Prop) :
  (forall acc w ev, Inv acc w ->
     match value (dispatch ev w) with
     | None | Some Pending =>
         Inv (acc ++ actions (dispatch ev w)) (world (dispatch ev w))
     | Some c => Post c (acc ++ actions (dispatch ev w)) (world (dispatch ev w))
     end) ->
  forall evs acc w, Inv acc w ->
    match value (await evs w) with
    | Pending => Inv (acc ++ actions (await evs w)) (world (await evs w))
    | c => Post c (acc ++ actions (await evs w)) (world (await evs w))
    end.
Proof.
  intros Hstep. induction evs as [|ev evs IH]; intros acc w HP.
  - simpl. unfold ret, value, actions, world. simpl.
    rewrite app_nil_r. exact HP.
  - specialize (Hstep acc w ev HP). simpl await. unfold bind.
    destruct (dispatch ev w) as [[c w1] o1].
    unfold value, world, actions in Hstep. simpl in Hstep.
    destruct c as [[ | |e]|].
    + specialize (IH _ _ Hstep).
      destruct (await evs w1) as [[c2 w2] o2].
      unfold value, world, actions in *. simpl in *.
      rewrite app_assoc. exact IH.
    + unfold ret, value, world, actions. simpl. rewrite app_nil_r. exact Hstep.
    + unfold ret, value, world, actions. simpl. rewrite app_nil_r. exact Hstep.
    + specialize (IH _ _ Hstep).
      destruct (await evs w1) as [[c2 w2] o2].
      unfold value, world, actions in *. simpl in *.
      rewrite app_assoc. exact IH.
Qed.

Lemma transition_invariant
      (Inv : list Action -> World -> Prop)
      (Post : Completion -> list Action -> World -> Prop)
      (name : string) (d : Q) (w : World) :
  match value (loadScene name d w) with
  | Pending => Inv (actions (loadScene name d w)) (world (loadScene name d w))
  | c => Post c (actions (loadScene name d w)) (world (loadScene name d w))
  end ->
  (forall acc w ev, Inv acc w ->
     match value (dispatch ev w) with
     | None | Some Pending =>
         Inv (acc ++ actions (dispatch ev w)) (world (dispatch ev w))
     | Some c => Post c (acc ++ actions (dispatch ev w)) (world (dispatch ev w))
     end) ->
  forall evs,
    match value (transition name d evs w) with
    | Pending => Inv (actions (transition name d evs w))
                   (world (transition name d evs w))
    | c => Post c (actions (transition name d evs w))
             (world (transition name d evs w))
    end.
Proof.
  intros Hcall Hstep evs. unfold transition, bind.
  destruct (loadScene name d w) as [[c w1] o1].
  unfold value, world, actions in Hcall. simpl in Hcall.
  destruct c as [ | |e].
  - pose proof (await_invariant Inv Post Hstep evs o1 w1 Hcall) as H.
    destruct (await evs w1) as [[c2 w2] o2].
    unfold value, world, actions in *. simpl in *. exact H.
  - unfold ret, value, world, actions. simpl. rewrite app_nil_r. exact Hcall.
  - unfold ret, value, world, actions. simpl. rewrite app_nil_r. exact Hcall.
Qed.


Ltac tidy :=
  rewrite ?lifecycle_app, ?opacity_writes_app;
  cbn [lifecycle opacity_writes retire app];
  repeat match goal with
    | H : lifecycle _ = _ |- _ => rewrite H
    | H : opacity_writes _ = _ |- _ => rewrite H
    | H : currentScene _ = _ |- _ => rewrite H in *
    end;
  cbn [lifecycle opacity_writes retire app];
  rewrite <- ?app_assoc; cbn [app].

Lemma loadScene_serving (name : string) (cls : SceneClass) (d : Q) (w : World) :
  isTransitioning w = false -> scenes w !! name = Some cls ->
  match value (loadScene name d w) with
  | Pending =>
      serving name cls d (currentScene w) (allocated w)
              (actions (loadScene name d w)) (world (loadScene name d w))
  | c =>
      served cls (currentScene w) (allocated w) c
             (actions (loadScene name d w)) (world (loadScene name d w))
  end.
Proof.
  intros Hidle Hreg. unfold serving, served.
  unfold_manager; msimpl. rewrite Hidle, Hreg. msimpl.
  repeat (split_match; msimpl); break; tidy;
    try solve [ congruence | eauto | lia | apply lookup_insert_eq
              | eexists; split; [reflexivity|]; msimpl; break; tidy;
                first [reflexivity | lia | apply lookup_insert_eq | eauto ] ].
Qed.

Ltac close_point :=
  solve [ congruence | eauto | lia | apply lookup_insert_eq
        | apply in_without_last
        | eexists; split; [reflexivity|]; msimpl; break; tidy;
          first [ reflexivity | lia | apply lookup_insert_eq
                | apply in_without_last | congruence
                | match goal with
                  | H : Qltb (min1 _) 1 = false |- _ =>
                      rewrite (min1_done _ H); apply lookup_insert_eq
                  end
                | solve [eauto] ] ].

Lemma serving_same (name : string) (cls : SceneClass) (d : Q)
      (old : option Scene) (a0 : nat) (acc acc' : list Action)
      (w w' : World) :
  isTransitioning w' = isTransitioning w -> allocated w' = allocated w ->
  in_flight w' = in_flight w -> currentScene w' = currentScene w ->
  stage w' = stage w -> alpha w' = alpha w ->
  lifecycle acc' = lifecycle acc ->
  serving name cls d old a0 acc w -> serving name cls d old a0 acc' w'.
Proof.
  unfold serving. intros -> -> -> -> -> -> ->. exact (fun H => H).
Qed.

Lemma dispatch_serving (name : string) (cls : SceneClass) (d : Q)
      (old : option Scene) (a0 : nat) (acc : list Action) (w : World)
      (ev : Event) :
  serving name cls d old a0 acc w ->
  match value (dispatch ev w) with
  | None | Some Pending =>
      serving name cls d old a0 (acc ++ actions (dispatch ev w))
              (world (dispatch ev w))
  | Some c =>
      served cls old a0 c (acc ++ actions (dispatch ev w))
             (world (dispatch ev w))
  end.
Proof.
  intros Hs. pose proof Hs as (Hflag & Ha & p & Hin & Hp).
  destruct ev as [nm d'|nm cls'|dt|wake|].
  - unfold_manager; msimpl. rewrite Hflag. msimpl.
    revert Hs. apply serving_same; try reflexivity.
    rewrite lifecycle_app. apply app_nil_r.
  - unfold_manager; msimpl.
    revert Hs. apply serving_same; try reflexivity. now rewrite app_nil_r.
  - unfold_manager; msimpl. destruct (currentScene w) eqn:Hcur; msimpl;
      revert Hs; apply serving_same; try reflexivity; try congruence.
    + rewrite lifecycle_app. apply app_nil_r.
    + now rewrite app_nil_r.
  - clear Hs. unfold serving, served. unfold_manager; msimpl.
    rewrite ?Hflag, ?Hin; msimpl.
    destruct p, wake as [| |[e|]]; msimpl; break;
      repeat (split_match; msimpl); break; tidy; try close_point.
  - unfold_manager; msimpl. rewrite Hin. msimpl.
    destruct (currentScene w) as [s|] eqn:Hcur; msimpl;
      [destruct p; msimpl|];
      try (revert Hs; apply serving_same; try reflexivity;
           now rewrite app_nil_r).
    clear Hs. unfold serving. msimpl. rewrite app_nil_r.
    split; [exact Hflag|]. split; [exact Ha|].
    exists UnloadAwait. split; [exact Hin|]. rewrite Hcur. exact Hp.
Qed.


Ltac alpha_cases :=
  match goal with
  | H : <[_ := _]> _ !! _ = Some _ |- _ =>
      rewrite lookup_insert in H; case_decide;
      [ injection H as <-; right; reflexivity | ]
  end.

Lemma loadScene_unfaded (name : string) (d : Q) (w : World) :
  Qltb 0 d = false ->
  match value (loadScene name d w) with
  | Pending => unfaded w (actions (loadScene name d w))
                       (world (loadScene name d w))
  | _ => unfaded_done w (actions (loadScene name d w))
                      (world (loadScene name d w))
  end.
Proof.
  intros Hd. unfold unfaded, unfaded_done.
  unfold_manager; msimpl. rewrite ?Hd.
  repeat (split_match; msimpl); break; tidy;
    try solve [ reflexivity | congruence | eauto | alpha_cases; eauto
              | eexists; split; [reflexivity|]; msimpl; eauto ].
Qed.

Lemma dispatch_unfaded (w0 : World) (acc : list Action) (w : World)
      (ev : Event) :
  unfaded w0 acc w ->
  match value (dispatch ev w) with
  | None | Some Pending =>
      unfaded w0 (acc ++ actions (dispatch ev w)) (world (dispatch ev w))
  | Some _ =>
      unfaded_done w0 (acc ++ actions (dispatch ev w))
                   (world (dispatch ev w))
  end.
Proof.
  unfold unfaded, unfaded_done.
  intros (Hflag & ([nm cls d p] & Hin & Hd & Hp) & Hacc & Halpha).
  cbn [fr_duration fr_point] in *.
  unfold_manager; msimpl.
  destruct ev as [nm' d'|nm' cls'|dt|wake|]; msimpl;
    rewrite ?Hflag, ?Hin; msimpl.
  4: destruct Hp as [->|[ns ->]]; destruct wake as [| |[e|]]; msimpl;
       rewrite ?Hd.
  all: repeat (split_match; msimpl); break; tidy;
    try solve [ reflexivity | congruence | eauto | alpha_cases; eauto
              | eexists; split; [eassumption|]; msimpl; eauto
              | eexists; split; [reflexivity|]; msimpl; eauto ].
Qed.


(** ** Properties of the manager *)

(** C1 (as amended): a call of [loadScene] made while a transition is in
    flight does not fail: it logs a warning and returns normally (its
    promise is fulfilled). It leaves the whole world as it was, that is the
    registration table, the active-scene slot and the suspended
    invocation, and nothing is recorded for later. *)
Theorem loadScene_while_transitioning (w : World) (name : string) (d : Q) :
  reachable w -> is_Some (in_flight w) ->
  loadScene name d w = (Resolved, w, [ConsoleWarn]).
Proof.
  intros Hr [fr Hfr]. destruct (reachable_consistent w Hr) as [Hfl _].
  rewrite Hfr in Hfl. destruct Hfl as [Hflag _].
  unfold_manager; msimpl. rewrite Hflag. reflexivity.
Qed.

(** C2 (as amended): the new scene becomes the active scene as soon as its
    [load()] has resolved and it is attached, before the fade-in starts:
    at every suspension point of the fade-in [getCurrentScene()] already
    returns the new scene while the transition is still in flight, and no
    later step of the transition touches the slot. *)
Theorem new_scene_active_during_fade_in (w : World) (fr : Frame) (ns : Scene) :
  reachable w -> in_flight w = Some fr ->
  (exists t, fr_point fr = FadeInFrame ns t) \/ fr_point fr = FadeInAwait ns ->
  getCurrentScene w = Some ns /\ isTransitioning w = true /\
  forall wake, getCurrentScene (world (resume wake w)) = Some ns.
Proof.
  intros Hr Hfr Hp. destruct (reachable_consistent w Hr) as [Hfl _].
  rewrite Hfr in Hfl. destruct Hfl as [Hflag Hpt]. unfold point_ok in Hpt.
  assert (Hcur : currentScene w = Some ns).
  { destruct Hp as [[t Hp]|Hp]; rewrite Hp in Hpt; exact Hpt. }
  split; [exact Hcur|]. split; [exact Hflag|].
  intros wake. unfold_manager; msimpl. rewrite Hfr. msimpl.
  destruct Hp as [[t Hp]|Hp]; rewrite Hp;
    destruct wake as [| |[e|]]; msimpl;
    repeat (split_match; msimpl); exact Hcur.
Qed.

(** C3 (as amended): when the outgoing scene's [unload()] rejects, the
    error propagates to the caller and the manager is idle again, but the
    active-scene slot is not cleared: [getCurrentScene()] still returns the
    outgoing scene. *)
Theorem unload_rejection_keeps_scene (w : World) (fr : Frame) (e : Thrown) :
  reachable w -> in_flight w = Some fr -> fr_point fr = UnloadAwait ->
  value (resume (Settle (Some e)) w) = Some (Rejected e) /\
  isTransitioning (world (resume (Settle (Some e)) w)) = false /\
  in_flight (world (resume (Settle (Some e)) w)) = None /\
  exists old,
    getCurrentScene w = Some old /\
    getCurrentScene (world (resume (Settle (Some e)) w)) = Some old.
Proof.
  intros Hr Hfr Hp. destruct (reachable_consistent w Hr) as [Hfl _].
  rewrite Hfr in Hfl. destruct Hfl as [_ Hpt]. unfold point_ok in Hpt.
  rewrite Hp in Hpt. destruct Hpt as [old Hold].
  unfold_manager; msimpl. rewrite Hfr. msimpl. rewrite Hp. msimpl.
  repeat split. exists old. split; assumption.
Qed.

(** C4: the flag is set for the whole of a transition and cleared at
    every exit. In every world the manager can reach it is set exactly when
    an invocation of [loadScene] is in flight. A call that finds the
    manager idle and the name registered sets it on its way to its first
    [await], and a step that leaves the invocation suspended leaves it set.
    Each way out is taken and leaves the manager idle: success (after the
    fade-in, or after [load()] when there is no fade), a rejected
    [unload()], a rejected [load()], a constructor that throws (in a
    resumed invocation or in the call itself). A call made while one is in
    flight does not replace it. *)
Theorem transition_flag_tracks_in_flight (w : World) :
  reachable w ->
  (isTransitioning w = true <-> is_Some (in_flight w)) /\
  (forall name d cls old,
      isTransitioning w = false -> scenes w !! name = Some cls ->
      currentScene w = Some old ->
      value (loadScene name d w) = Pending /\
      isTransitioning (world (loadScene name d w)) = true) /\
  (forall name d cls,
      isTransitioning w = false -> scenes w !! name = Some cls ->
      currentScene w = None -> constructor_throws (constructions w) cls = None ->
      value (loadScene name d w) = Pending /\
      isTransitioning (world (loadScene name d w)) = true) /\
  (forall wake,
      value (resume wake w) = Some Pending ->
      isTransitioning (world (resume wake w)) = true) /\
  (forall fr ns,
      in_flight w = Some fr -> fr_point fr = FadeInAwait ns ->
      value (resume Microtask w) = Some Resolved /\
      idle (world (resume Microtask w))) /\
  (forall fr ns,
      in_flight w = Some fr -> fr_point fr = LoadAwait ns ->
      Qltb 0 (fr_duration fr) = false ->
      value (resume (Settle None) w) = Some Resolved /\
      idle (world (resume (Settle None) w))) /\
  (forall fr e,
      in_flight w = Some fr -> fr_point fr = UnloadAwait ->
      value (resume (Settle (Some e)) w) = Some (Rejected e) /\
      idle (world (resume (Settle (Some e)) w))) /\
  (forall fr ns e,
      in_flight w = Some fr -> fr_point fr = LoadAwait ns ->
      value (resume (Settle (Some e)) w) = Some (Rejected e) /\
      idle (world (resume (Settle (Some e)) w))) /\
  (forall fr e,
      in_flight w = Some fr -> fr_point fr = UnloadAwait ->
      constructor_throws (constructions w) (fr_SceneClass fr) = Some e ->
      value (resume (Settle None) w) = Some (Rejected e) /\
      idle (world (resume (Settle None) w))) /\
  (forall name d cls e,
      isTransitioning w = false -> scenes w !! name = Some cls ->
      currentScene w = None -> constructor_throws (constructions w) cls = Some e ->
      value (loadScene name d w) = Rejected e /\
      idle (world (loadScene name d w))) /\
  (forall wake c,
      value (resume wake w) = Some c -> c <> Pending ->
      idle (world (resume wake w))) /\
  (forall name d e,
      value (loadScene name d w) = Rejected e ->
      idle (world (loadScene name d w))) /\
  (forall name d,
      is_Some (in_flight w) ->
      in_flight (world (loadScene name d w)) = in_flight w).
Proof.
  intros Hr. destruct (reachable_consistent w Hr) as [Hfl _]. unfold idle.
  repeat apply conj.
  - destruct (in_flight w) as [fr|].
    + intros _. eexists. reflexivity.
    + rewrite Hfl. discriminate.
  - destruct (in_flight w) as [fr|].
    + intros _. apply Hfl.
    + intros [? ?]; discriminate.
  - intros name d cls old Hidle Hreg Hcur.
    unfold_manager; msimpl.
    repeat (progress (rewrite ?Hidle, ?Hreg, ?Hcur; msimpl)).
    repeat (split_match; msimpl); try congruence; split; reflexivity.
  - intros name d cls Hidle Hreg Hcur Hctor.
    unfold_manager; msimpl.
    repeat (progress (rewrite ?Hidle, ?Hreg, ?Hcur, ?Hctor; msimpl)).
    repeat (split_match; msimpl); try congruence; split; reflexivity.
  - intros wake. unfold_manager; msimpl.
    destruct (in_flight w) as [fr|]; msimpl; [|discriminate].
    destruct Hfl as [Hflag _].
    repeat (split_match; msimpl); intros [=]; exact Hflag.
  - intros fr ns Hfr Hp.
    unfold_manager; msimpl. rewrite Hfr. msimpl. rewrite Hp. msimpl.
    repeat split.
  - intros fr ns Hfr Hp Hd.
    unfold_manager; msimpl. rewrite Hfr. msimpl. rewrite Hp. msimpl.
    rewrite Hd. msimpl. repeat split.
  - intros fr e Hfr Hp.
    unfold_manager; msimpl. rewrite Hfr. msimpl. rewrite Hp. msimpl.
    repeat split.
  - intros fr ns e Hfr Hp.
    unfold_manager; msimpl. rewrite Hfr. msimpl. rewrite Hp. msimpl.
    repeat split.
  - intros fr e Hfr Hp Hctor. rewrite Hfr in Hfl.
    destruct Hfl as [_ Hpt]. unfold point_ok in Hpt. rewrite Hp in Hpt.
    destruct Hpt as [old Hold].
    unfold_manager; msimpl. rewrite Hfr. msimpl. rewrite Hp. msimpl.
    rewrite Hold. msimpl. rewrite Hctor. msimpl. repeat split.
  - intros name d cls e Hidle Hreg Hcur Hctor.
    destruct (in_flight w) as [fr|] eqn:Hin; [destruct Hfl; congruence|].
    unfold_manager; msimpl.
    repeat (progress (rewrite ?Hidle, ?Hreg, ?Hcur, ?Hctor; msimpl)).
    repeat (split_match; msimpl); try congruence; repeat split.
  - intros wake c. unfold_manager; msimpl.
    destruct (in_flight w) as [fr|]; msimpl; [|discriminate].
    repeat (split_match; msimpl); intros [= <-] Hc;
      solve [ congruence | split; reflexivity ].
  - intros name d e. unfold_manager; msimpl.
    destruct (isTransitioning w) eqn:Hflag; msimpl; [discriminate|].
    destruct (in_flight w) as [fr|] eqn:Hin; [destruct Hfl; discriminate|].
    repeat (split_match; msimpl); intros [= <-];
      solve [ split; [assumption || reflexivity | assumption || reflexivity] ].
  - intros name d [fr Hfr]. rewrite Hfr in Hfl. destruct Hfl as [Hflag _].
    unfold_manager; msimpl. rewrite Hflag. reflexivity.
Qed.

(** C5: when the new scene's [load()] rejects, the error propagates to
    the caller, [getCurrentScene()] returns nothing, the flag is cleared,
    and the next call of [loadScene] goes past the guard: it logs no
    warning and, for a registered name, starts by constructing the
    scene. *)
Theorem load_rejection_leaves_no_scene (w : World) (fr : Frame) (ns : Scene)
        (e : Thrown) :
  reachable w -> in_flight w = Some fr -> fr_point fr = LoadAwait ns ->
  let w' := world (resume (Settle (Some e)) w) in
  value (resume (Settle (Some e)) w) = Some (Rejected e) /\
  getCurrentScene w' = None /\
  isTransitioning w' = false /\
  forall name d,
    ~ In ConsoleWarn (actions (loadScene name d w')) /\
    forall cls, scenes w' !! name = Some cls ->
      exists rest, actions (loadScene name d w') = New cls :: rest.
Proof.
  intros Hr Hfr Hp. destruct (reachable_consistent w Hr) as [Hfl _].
  rewrite Hfr in Hfl. destruct Hfl as [_ Hpt]. unfold point_ok in Hpt.
  rewrite Hp in Hpt.
  unfold_manager; msimpl. rewrite Hfr. msimpl. rewrite Hp. msimpl.
  rewrite Hpt. msimpl.
  repeat split; intros; repeat (split_match; msimpl);
    cbn [In]; try solve [ intuition congruence | eauto ].
  all: match goal with H : Some _ = Some _ |- _ => injection H as -> end;
    eexists; reflexivity.
Qed.

(** C6: when no transition is in flight, [loadScene] on a name that is
    not registered throws (its promise is rejected with the error naming
    the scene) before the flag is set: the world, and with it the flag and
    the active-scene slot, is left as it was. *)
Theorem loadScene_unregistered (w : World) (name : string) (d : Q) :
  isTransitioning w = false -> scenes w !! name = None ->
  loadScene name d w = (Rejected (JsError (not_registered name)), w, []).
Proof.
  intros Hflag Hreg. unfold_manager; msimpl. rewrite Hflag, Hreg.
  reflexivity.
Qed.


(** C8 (as amended): a call of [loadScene] on a registered name that is
    made while no transition is in flight and whose promise is fulfilled
    leaves an active scene constructed during the call by the class
    registered under that name when the call was made:
    [getCurrentScene()] returns it, its container is on the stage, its
    [alpha] is 1 and the flag is cleared. *)
Theorem loadScene_success (w : World) (name : string) (d : Q)
        (cls : SceneClass) (evs : list Event) :
  isTransitioning w = false -> scenes w !! name = Some cls ->
  value (transition name d evs w) = Resolved ->
  let w' := world (transition name d evs w) in
  exists ns,
    getCurrentScene w' = Some ns /\ scene_class ns = cls /\
    allocated w <= container ns /\ In (container ns) (stage w') /\
    alpha w' !! container ns = Some 1%Q /\ isTransitioning w' = false.
Proof.
  intros Hidle Hreg Hres.
  pose proof (transition_invariant
                (serving name cls d (currentScene w) (allocated w))
                (served cls (currentScene w) (allocated w))
                name d w (loadScene_serving name cls d w Hidle Hreg)
                (fun acc w1 ev => dispatch_serving name cls d _ _ acc w1 ev)
                evs) as H.
  rewrite Hres in H. destruct H as (Hflag & _ & Hok).
  destruct (Hok eq_refl) as (ns & Hcur & Hcls & Ha & Hin & Hal & _).
  exists ns. unfold getCurrentScene. repeat split; assumption.
Qed.

(** C9: with [transitionDuration = 0] the fades are skipped: during the
    whole call the manager assigns no [alpha] at all, so that every
    [alpha] there is afterwards either was there before the call or is the
    1 of a new container; and when the call, made with no transition in
    flight on a registered name, succeeds, it has still unloaded and
    detached the old scene, if any, then constructed, loaded and attached
    the new one, in that order. *)
Theorem loadScene_without_fade (w : World) (name : string)
        (evs : list Event) :
  let r := transition name 0 evs w in
  opacity_writes (actions r) = [] /\
  (forall c q, alpha (world r) !! c = Some q ->
               alpha w !! c = Some q \/ q = 1%Q) /\
  forall cls,
    isTransitioning w = false -> scenes w !! name = Some cls ->
    value r = Resolved ->
    exists ns,
      getCurrentScene (world r) = Some ns /\
      lifecycle (actions r) =
        retire (currentScene w) ++
        [New cls; Load ns; AddChild (container ns)].
Proof.
  intros r.
  assert (Hno : unfaded_done w (actions r) (world r)).
  { pose proof (transition_invariant (unfaded w)
                  (fun _ => unfaded_done w) name 0 w
                  (loadScene_unfaded name 0 w eq_refl)
                  (dispatch_unfaded w) evs) as H.
    fold r in H. destruct (value r); try exact H.
    destruct H as (_ & _ & H1 & H2). split; assumption. }
  destruct Hno as [Hw Ha]. split; [exact Hw|]. split; [exact Ha|].
  intros cls Hidle Hreg Hres.
  pose proof (transition_invariant
                (serving name cls 0 (currentScene w) (allocated w))
                (served cls (currentScene w) (allocated w))
                name 0 w (loadScene_serving name cls 0 w Hidle Hreg)
                (fun acc w1 ev => dispatch_serving name cls 0 _ _ acc w1 ev)
                evs) as H.
  fold r in H. rewrite Hres in H. destruct H as (_ & _ & Hok).
  destruct (Hok eq_refl) as (ns & Hcur & _ & _ & _ & _ & Hlife).
  exists ns. split; assumption.
Qed.

(** C10: [registerScene] on a name that is already registered does not
    fail: the entry is overwritten, nothing else changes (not the
    active-scene slot, the flag, the invocation in flight or the stage),
    and a later call of [loadScene] for that name that succeeds has
    constructed its scene from the class registered last. *)
Theorem registerScene_overwrites (w : World) (name : string)
        (cls1 cls2 : SceneClass) :
  scenes w !! name = Some cls1 ->
  let w' := world (registerScene name cls2 w) in
  actions (registerScene name cls2 w) = [] /\
  scenes w' = <[name := cls2]> (scenes w) /\
  scenes w' !! name = Some cls2 /\
  currentScene w' = currentScene w /\
  isTransitioning w' = isTransitioning w /\
  in_flight w' = in_flight w /\
  stage w' = stage w /\
  forall d evs,
    isTransitioning w = false ->
    value (transition name d evs w') = Resolved ->
    exists ns,
      getCurrentScene (world (transition name d evs w')) = Some ns /\
      scene_class ns = cls2 /\
      lifecycle (actions (transition name d evs w')) =
        retire (currentScene w) ++
        [New cls2; Load ns; AddChild (container ns)].
Proof.
  intros Hreg w'.
  assert (Hreg' : scenes w' !! name = Some cls2) by apply lookup_insert_eq.
  split; [reflexivity|]. split; [reflexivity|]. split; [exact Hreg'|].
  repeat (split; [reflexivity|]).
  intros d evs Hidle Hres.
  pose proof (transition_invariant
                (serving name cls2 d (currentScene w') (allocated w'))
                (served cls2 (currentScene w') (allocated w'))
                name d w' (loadScene_serving name cls2 d w' Hidle Hreg')
                (fun acc w1 ev => dispatch_serving name cls2 d _ _ acc w1 ev)
                evs) as H.
  rewrite Hres in H. destruct H as (_ & _ & Hok).
  destruct (Hok eq_refl) as (ns & Hcur & Hcls & _ & _ & _ & Hlife).
  exists ns. repeat split; assumption.
Qed.

(** ** More about the manager *)

Lemma reachable_one_attached (w : World) : reachable w -> one_attached w.
Proof. intros Hr. exact (proj2 (reachable_consistent w Hr)). Qed.

Lemma BaseScene_unload_stage (w : World) :
  exists l, world (dispatch BaseSceneUnload w) = set_stage l w.
Proof.
  unfold_manager; msimpl. repeat (split_match; msimpl);
    first [ eexists; reflexivity | exists (stage w); destruct w; reflexivity ].
Qed.

Lemma new_SceneManager_faded_out : faded_out new_SceneManager.
Proof. intros fr Hfr. discriminate Hfr. Qed.

Lemma alpha_zero_after_fade (a x : Q) :
  Qltb (min1 x) 1 = false -> (a * (1 - min1 x) == 0)%Q.
Proof. intros H. rewrite (min1_done _ H). ring. Qed.

Lemma dispatch_faded_out (ev : Event) (w : World) :
  faded_out w -> faded_out (world (dispatch ev w)).
Proof.
  unfold faded_out. intros Hf.
  assert (Hf' : forall f, in_flight w = Some f ->
                          Qltb 0 (fr_duration f) = true ->
                          match fr_point f with
                          | FadeOutFrame c _ _ =>
                              exists s, currentScene w = Some s /\ container s = c
                          | FadeOutAwait | UnloadAwait =>
                              exists s a, currentScene w = Some s /\
                                          alpha w !! container s = Some a /\
                                          (a == 0)%Q
                          | _ => True
                          end) by exact Hf.
  clear Hf.
  destruct ev as [name d|name cls|dt|wake|];
    [| | | |destruct (BaseScene_unload_stage w) as [l ->]; exact Hf'];
    unfold_manager; msimpl.
  4: destruct (in_flight w) as [[nm cls d p]|] eqn:Hin; msimpl;
       [ specialize (Hf' _ eq_refl);
         cbn [fr_name fr_SceneClass fr_duration fr_point] in Hf';
         destruct p, wake as [| |[e|]]; msimpl
       | intros fr' Hfr'; congruence ].
  all: repeat (split_match; msimpl); intros fr' Hfr' Hd';
    try discriminate Hfr';
    try (injection Hfr' as <-;
         cbn [fr_name fr_SceneClass fr_duration fr_point] in * );
    try congruence; try exact I;
    repeat match goal with
      | H : currentScene _ = _ |- _ => rewrite H in *
      end;
    try solve [ apply Hf'; assumption ];
    try (specialize (Hf' Hd'); destruct Hf' as (s' & Hs' & Hc'));
    try solve
      [ eexists; split; [first [eassumption|reflexivity]|reflexivity]
      | eexists _, _; split; [first [eassumption|reflexivity]|]; split;
        [ apply lookup_insert_eq | apply alpha_zero_after_fade; assumption ]
      | subst; eexists _, _; split; [first [eassumption|reflexivity]|]; split;
        [ apply lookup_insert_eq | apply alpha_zero_after_fade; assumption ]
      | eexists _; eassumption ].
Qed.

Lemma reachable_faded_out (w : World) : reachable w -> faded_out w.
Proof.
  intros [evs <-]. generalize new_SceneManager_faded_out.
  generalize new_SceneManager as w.
  induction evs as [|ev evs IH]; intros w Hw; [exact Hw|].
  rewrite world_run_cons, world_step. apply IH.
  now apply dispatch_faded_out.
Qed.


(** *** The progress of a fade *)

Lemma progress_done (e : Z) (d : Q) :
  (0 < d)%Q ->
  (Qltb (min1 (inject_Z e / d)) 1 = false <-> (d <= inject_Z e)%Q).
Proof.
  intros Hd. unfold min1, Qltb.
  assert (Hnz : ~ (d == 0)%Q) by (intros H; rewrite H in Hd; now apply Qlt_irrefl in Hd).
  destruct (Qle_bool 1 (inject_Z e / d)) eqn:E.
  - apply Qle_bool_iff in E. split; [intros _|reflexivity].
    apply (Qmult_le_compat_r _ _ d) in E; [|now apply Qlt_le_weak].
    rewrite Qmult_1_l in E. unfold Qdiv in E.
    rewrite <- Qmult_assoc, (Qmult_comm (/ d)), Qmult_inv_r, Qmult_1_r in E;
      assumption.
  - rewrite E. split; [discriminate|]. intros Hle. exfalso.
    assert (Hone : Qle_bool 1 (inject_Z e / d) = true).
    { apply Qle_bool_iff. apply Qle_shift_div_l; [exact Hd|].
      now rewrite Qmult_1_l. }
    congruence.
Qed.

Lemma progress_bounds (e : Z) (d : Q) :
  (0 < d)%Q -> (0 <= e)%Z ->
  (0 <= min1 (inject_Z e / d))%Q /\ (min1 (inject_Z e / d) <= 1)%Q.
Proof.
  intros Hd He. unfold min1.
  destruct (Qle_bool 1 (inject_Z e / d)) eqn:E.
  - split; discriminate.
  - split.
    + apply Qle_shift_div_l; [exact Hd|]. rewrite Qmult_0_l.
      change 0%Q with (inject_Z 0). now rewrite <- Zle_Qle.
    + apply Qnot_lt_le. intros Hlt. apply Qlt_le_weak in Hlt.
      apply Qle_bool_iff in Hlt. congruence.
Qed.

(** X1: [update] goes on forwarding frames during a transition, to whatever
    the active-scene slot holds: to the outgoing scene while it fades out
    and while its [unload()] is awaited, to nobody while the new scene's
    [load()] is awaited, and to the new scene during its fade-in. It never
    changes the manager. *)
Theorem update_during_transition (w : World) (fr : Frame) (dt : Q) :
  reachable w -> in_flight w = Some fr ->
  world (update dt w) = w /\
  match fr_point fr with
  | FadeOutFrame _ _ _ | FadeOutAwait | UnloadAwait =>
      exists old, getCurrentScene w = Some old /\
                  actions (update dt w) = [Update old dt]
  | LoadAwait _ => actions (update dt w) = []
  | FadeInFrame ns _ | FadeInAwait ns => actions (update dt w) = [Update ns dt]
  end.
Proof.
  intros Hr Hfr. destruct (reachable_consistent w Hr) as [Hfl _].
  rewrite Hfr in Hfl. destruct Hfl as [_ Hpt]. unfold point_ok in Hpt.
  unfold update, getCurrentScene. msimpl.
  destruct (fr_point fr).
  1-3: destruct Hpt as [old Hold]; rewrite Hold; msimpl;
    (split; [reflexivity|]); exists old; split; reflexivity.
  all: rewrite Hpt; msimpl; split; reflexivity.
Qed.

(** X2: in every world the manager can reach, the stage holds nothing but
    the container of the active scene: at most one scene is attached, and
    none when the slot is empty. The stage can be empty while the slot is
    full, once the scene has destroyed its container in its [unload()]. *)
Theorem stage_holds_active_scene (w : World) :
  reachable w ->
  match getCurrentScene w with
  | Some s => stage w = [container s] \/ stage w = []
  | None => stage w = []
  end.
Proof. intros Hr. exact (reachable_one_attached w Hr). Qed.

(** X3: when the outgoing scene's [unload()] rejects after a fade-out, the
    scene that stays active is left invisible: its [alpha] is 0, and the
    manager is idle. Its container is the only thing that can still be on
    the stage. *)
Theorem unload_rejection_after_fade_out (w : World) (fr : Frame) (e : Thrown) :
  reachable w -> in_flight w = Some fr -> fr_point fr = UnloadAwait ->
  Qltb 0 (fr_duration fr) = true ->
  let w' := world (resume (Settle (Some e)) w) in
  isTransitioning w' = false /\
  exists old a,
    getCurrentScene w' = Some old /\
    (stage w' = [container old] \/ stage w' = []) /\
    alpha w' !! container old = Some a /\ (a == 0)%Q.
Proof.
  intros Hr Hfr Hp Hd.
  pose proof (reachable_faded_out w Hr fr Hfr Hd) as Hf.
  pose proof (reachable_one_attached w Hr) as Hone. unfold one_attached in Hone.
  rewrite Hp in Hf. destruct Hf as (old & a & Hold & Ha & Hz).
  rewrite Hold in Hone.
  unfold_manager; msimpl. rewrite Hfr. msimpl. rewrite Hp. msimpl.
  split; [reflexivity|]. exists old, a. repeat split; assumption.
Qed.

(** X4: one frame of a fade-in, with a positive duration and a clock that
    has not gone back since the fade started: the [alpha] it assigns is
    [elapsed / duration] capped at 1, that is [elapsed / duration] itself
    before [duration] milliseconds have elapsed and 1 from then on, so
    between 0 and 1; the fade resolves at this frame exactly when [duration]
    milliseconds have elapsed, and asks for another frame otherwise. *)
Theorem fade_in_frame (c : Container) (startTime : Z) (d : Q) (w : World) :
  (0 < d)%Q -> (startTime <= Date_now (clock_reads w))%Z ->
  let elapsed := (Date_now (clock_reads w) - startTime)%Z in
  let r := animate_in c startTime d w in
  exists a,
    actions r = [SetAlpha c a] /\ alpha (world r) !! c = Some a /\
    a = min1 (inject_Z elapsed / d) /\
    ((inject_Z elapsed < d)%Q -> a = (inject_Z elapsed / d)%Q) /\
    ((d <= inject_Z elapsed)%Q -> a = 1%Q) /\
    (0 <= a)%Q /\ (a <= 1)%Q /\
    (value r = false <-> (d <= inject_Z elapsed)%Q) /\
    (value r = false -> a = 1%Q).
Proof.
  intros Hd Ht elapsed r. subst r. unfold animate_in, now, assign_alpha. msimpl.
  fold elapsed.
  exists (min1 (inject_Z elapsed / d)).
  assert (He : (0 <= elapsed)%Z) by (unfold elapsed; lia).
  destruct (progress_bounds elapsed d Hd He) as [H0 H1].
  pose proof (progress_done elapsed d Hd) as Hdone.
  repeat split; try assumption.
  - apply lookup_insert_eq.
  - intros Hlt. unfold min1 in *.
    destruct (Qle_bool 1 (inject_Z elapsed / d)) eqn:E; [|reflexivity].
    exfalso. apply (Qlt_not_le _ _ Hlt). now apply Hdone.
  - intros Hle. apply min1_done. now apply Hdone.
  - now apply Hdone.
  - now apply Hdone.
  - apply min1_done.
Qed.

(** X5: one frame of a fade-out, under the same conditions and from a
    starting [alpha] that is not negative: the [alpha] it assigns is the
    starting one scaled by what is left of the fade, so between 0 and the
    starting [alpha]; the fade resolves exactly when [duration] milliseconds
    have elapsed, and then the [alpha] is 0. *)
Theorem fade_out_frame (c : Container) (startAlpha : Q) (startTime : Z)
        (d : Q) (w : World) :
  (0 < d)%Q -> (0 <= startAlpha)%Q ->
  (startTime <= Date_now (clock_reads w))%Z ->
  let elapsed := (Date_now (clock_reads w) - startTime)%Z in
  let r := animate_out c startAlpha startTime d w in
  exists a,
    actions r = [SetAlpha c a] /\ alpha (world r) !! c = Some a /\
    (0 <= a)%Q /\ (a <= startAlpha)%Q /\
    (value r = false <-> (d <= inject_Z elapsed)%Q) /\
    (value r = false -> (a == 0)%Q).
Proof.
  intros Hd Ha Ht elapsed r. subst r.
  unfold animate_out, now, assign_alpha. msimpl. fold elapsed.
  set (p := min1 (inject_Z elapsed / d)).
  exists (startAlpha * (1 - p))%Q.
  assert (He : (0 <= elapsed)%Z) by (unfold elapsed; lia).
  destruct (progress_bounds elapsed d Hd He) as [H0 H1]. fold p in H0, H1.
  repeat split.
  - apply lookup_insert_eq.
  - apply Qmult_le_0_compat; [exact Ha|].
    unfold Qminus. rewrite <- Qle_minus_iff. exact H1.
  - rewrite <- (Qmult_1_r startAlpha) at 2.
    rewrite (Qmult_comm startAlpha (1 - p)), (Qmult_comm startAlpha 1).
    apply Qmult_le_compat_r; [|exact Ha].
    apply Qle_minus_iff. ring_simplify. exact H0.
  - now apply progress_done.
  - now apply progress_done.
  - intros Hv. now apply alpha_zero_after_fade.
Qed.

(** X6: a call without a fade, made while no transition is in flight on a
    registered name whose constructor does not throw, is carried to success
    by the resolution of its hooks alone: of the outgoing scene's
    [unload()] when there is an active scene, then of the new scene's
    [load()]. No animation frame and no clock reading is needed. *)
Theorem loadScene_without_fade_completes (w : World) (name : string) (d : Q)
        (cls : SceneClass) :
  isTransitioning w = false -> scenes w !! name = Some cls ->
  Qltb 0 d = false -> constructor_throws (constructions w) cls = None ->
  let r := transition name d (hooks_resolve (currentScene w)) w in
  value r = Resolved /\ clock_reads (world r) = clock_reads w /\
  getCurrentScene (world r) = Some (mkScene cls (allocated w)).
Proof.
  intros Hidle Hreg Hd Hctor. unfold hooks_resolve.
  destruct (currentScene w) as [old|] eqn:Hcur;
    unfold transition; unfold_manager; msimpl;
    repeat (progress (rewrite ?Hidle, ?Hreg, ?Hcur, ?Hd, ?Hctor; msimpl;
                      cbn [await]; unfold_manager; msimpl));
    repeat split.
Qed.

(** X7: when the constructor of the new scene throws after the outgoing
    scene's [unload()] has resolved, the call is rejected with what was
    thrown, but the outgoing scene is gone already: it has been detached,
    the slot and the stage are empty, and the manager is idle. *)
Theorem constructor_throw_after_unload (w : World) (fr : Frame) (e : Thrown) :
  reachable w -> in_flight w = Some fr -> fr_point fr = UnloadAwait ->
  constructor_throws (constructions w) (fr_SceneClass fr) = Some e ->
  let r := resume (Settle None) w in
  value r = Some (Rejected e) /\
  getCurrentScene (world r) = None /\ stage (world r) = [] /\
  isTransitioning (world r) = false /\
  exists old,
    getCurrentScene w = Some old /\
    lifecycle (actions r) =
      [RemoveChild (container old); New (fr_SceneClass fr)].
Proof.
  intros Hr Hfr Hp Hctor.
  destruct (reachable_consistent w Hr) as [Hfl _].
  rewrite Hfr in Hfl. destruct Hfl as [_ Hpt]. unfold point_ok in Hpt.
  rewrite Hp in Hpt. destruct Hpt as [old Hold].
  pose proof (reachable_one_attached w Hr) as Hone. unfold one_attached in Hone.
  rewrite Hold in Hone.
  unfold_manager; msimpl. rewrite Hfr. msimpl. rewrite Hp. msimpl.
  rewrite Hold. msimpl. rewrite Hctor. msimpl.
  destruct Hone as [-> | ->]; cbn [without]; rewrite ?Nat.eqb_refl;
    repeat split; exists old; split; reflexivity.
Qed.

(** X8: the initial scene [Game.init()] loads is always a registered one,
    for either authentication state: the call is never rejected for an
    unknown name. With no scene to retire it goes straight to constructing
    the menu or the overworld and is suspended on its [load()], unless the
    constructor throws, which is then what rejects the call. *)
Theorem Game_init_loads_registered_scene (isAuthenticated : bool) :
  let name :=
    if isAuthenticated then SCENE_NAMES_OVERWORLD else SCENE_NAMES_MENU in
  let cls := if isAuthenticated then OverworldScene else MenuScene in
  let r := Game_init isAuthenticated new_Game in
  scenes new_Game !! name = Some cls /\
  match constructor_throws 0 cls with
  | Some e =>
      value r = Rejected e /\ getCurrentScene (world r) = None /\
      isTransitioning (world r) = false
  | None =>
      value r = Pending /\
      in_flight (world r) =
        Some (mkFrame name cls 300 (LoadAwait (mkScene cls 0))) /\
      actions r = [New cls; Load (mkScene cls 0)]
  end.
Proof.
  destruct isAuthenticated; cbv zeta; (split; [reflexivity|]).
  - destruct (constructor_throws 0 OverworldScene) eqn:E;
      vm_compute; vm_compute in E; rewrite E; repeat split.
  - destruct (constructor_throws 0 MenuScene) eqn:E;
      vm_compute; vm_compute in E; rewrite E; repeat split.
Qed.

End Manager.

(** ** The properties on the sample session *)

(** What the manager does over the sample session, up to the middle of
    the overworld's fade-in. *)
Example sample_session_actions :
  actions (run sample_clock sample_constructors entering_overworld
               new_SceneManager) =
  [New "MenuScene"; Load (mkScene "MenuScene" 0); AddChild 0;
   ConsoleLog "menu";
   SetAlpha 0 (200 # 300); SetAlpha 0 (100 # 300); SetAlpha 0 0;
   Unload (mkScene "MenuScene" 0); RemoveChild 0;
   New "OverworldScene"; Load (mkScene "OverworldScene" 1); AddChild 1;
   SetAlpha 1 0; SetAlpha 1 (100 # 300)].
Proof. vm_compute. reflexivity. Qed.

(** A constructor that throws rejects the call at once, before any
    suspension. *)
Example throwing_constructor_rejects :
  let r := loadScene sample_clock (fun _ _ => Some (JsError "no assets"))
                     "menu" 300
                     (world (registerScene "menu" "MenuScene" new_SceneManager)) in
  value r = Rejected (JsError "no assets") /\
  isTransitioning (world r) = false /\
  actions r = [New "MenuScene"; ConsoleError "menu" (JsError "no assets")].
Proof. vm_compute. repeat split. Qed.

(** C1, on the sample session: while the menu's [unload()] is awaited, a
    call for the menu returns normally and changes nothing. *)
Lemma loadScene_while_transitioning_witness :
  let w := world (run sample_clock sample_constructors leaving_menu
                      new_SceneManager) in
  loadScene sample_clock sample_constructors "menu" 300 w =
  (Resolved, w, [ConsoleWarn]).
Proof.
  intro w.
  apply (loadScene_while_transitioning sample_clock sample_constructors w).
  - exists leaving_menu. reflexivity.
  - eexists. vm_compute. reflexivity.
Defined.

(** C1 as stated fails: a transition is in flight, the name is registered,
    and the call is not rejected. *)
Lemma loadScene_while_transitioning_not_rejected :
  let w := world (run sample_clock sample_constructors leaving_menu
                      new_SceneManager) in
  ~ (is_Some (in_flight w) ->
     scenes w !! "menu" = Some "MenuScene" ->
     exists e,
       value (loadScene sample_clock sample_constructors "menu" 300 w) =
       Rejected e).
Proof.
  intros w H. destruct H as [e He].
  - eexists. vm_compute. reflexivity.
  - vm_compute. reflexivity.
  - vm_compute in He. discriminate He.
Qed.

(** C2, on the sample session: in the middle of the overworld's fade-in
    the overworld is the active scene already. *)
Lemma new_scene_active_during_fade_in_witness :
  let w := world (run sample_clock sample_constructors entering_overworld
                      new_SceneManager) in
  let ns := mkScene "OverworldScene" 1 in
  getCurrentScene w = Some ns /\ isTransitioning w = true /\
  forall wake,
    getCurrentScene (world (resume sample_clock sample_constructors wake w)) =
    Some ns.
Proof.
  intros w ns.
  apply (new_scene_active_during_fade_in sample_clock sample_constructors w
           (mkFrame "overworld" "OverworldScene" 300 (FadeInFrame ns 400)) ns).
  - exists entering_overworld. reflexivity.
  - vm_compute. reflexivity.
  - left. exists 400%Z. reflexivity.
Defined.

(** C2 as stated fails: the fade-in is in progress (the transition is in
    flight and the new container's [alpha] is 1/3) and [getCurrentScene()]
    returns the new scene. *)
Lemma getCurrentScene_mid_fade :
  let w := world (run sample_clock sample_constructors entering_overworld
                      new_SceneManager) in
  let ns := mkScene "OverworldScene" 1 in
  in_flight w =
    Some (mkFrame "overworld" "OverworldScene" 300 (FadeInFrame ns 400)) /\
  alpha w !! container ns = Some (100 # 300)%Q /\
  ~ (getCurrentScene w <> Some ns).
Proof.
  intros w ns. split; [vm_compute; reflexivity|].
  split; [vm_compute; reflexivity|].
  intros H. apply H. vm_compute. reflexivity.
Qed.

(** C3, on the sample session: the menu's [unload()] rejects and the menu
    stays the active scene. *)
Lemma unload_rejection_keeps_scene_witness :
  let w := world (run sample_clock sample_constructors leaving_menu
                      new_SceneManager) in
  let e := JsError "unload failed" in
  let r := resume sample_clock sample_constructors (Settle (Some e)) w in
  value r = Some (Rejected e) /\
  isTransitioning (world r) = false /\
  in_flight (world r) = None /\
  exists old,
    getCurrentScene w = Some old /\ getCurrentScene (world r) = Some old.
Proof.
  intros w e r.
  apply (unload_rejection_keeps_scene sample_clock sample_constructors w
           (mkFrame "overworld" "OverworldScene" 300 UnloadAwait) e).
  - exists leaving_menu. reflexivity.
  - vm_compute. reflexivity.
  - reflexivity.
Defined.

(** C3 as stated fails: after the rejected [unload()] the slot is not
    empty. *)
Lemma getCurrentScene_after_unload_rejection :
  let w := world (run sample_clock sample_constructors leaving_menu
                      new_SceneManager) in
  let r := resume sample_clock sample_constructors
                  (Settle (Some (JsError "unload failed"))) w in
  value r = Some (Rejected (JsError "unload failed")) /\
  ~ (getCurrentScene (world r) = None).
Proof.
  intros w r. split; [vm_compute; reflexivity|].
  intros H. vm_compute in H. discriminate H.
Qed.

(** C4, on the sample session: the flag is set while the menu's
    [unload()] is awaited, and each way out is taken and clears it: the
    rejection of that [unload()], the rejection of the menu's [load()], and
    the end of the overworld's fade-in. *)
Lemma transition_flag_tracks_in_flight_witness :
  let at_end evs :=
    world (run sample_clock sample_constructors evs new_SceneManager) in
  let wake := resume sample_clock sample_constructors in
  let e := JsError "hook failed" in
  let unloading := at_end leaving_menu in
  let loading := at_end menu_loading in
  let faded_in :=
    at_end (entering_overworld ++
            [Resume AnimationFrame; Resume AnimationFrame]) in
  isTransitioning unloading = true /\
  (value (wake (Settle (Some e)) unloading) = Some (Rejected e) /\
   idle (world (wake (Settle (Some e)) unloading))) /\
  (value (wake (Settle (Some e)) loading) = Some (Rejected e) /\
   idle (world (wake (Settle (Some e)) loading))) /\
  (value (wake (Settle None) loading) = Some Resolved /\
   idle (world (wake (Settle None) loading))) /\
  (value (wake Microtask faded_in) = Some Resolved /\
   idle (world (wake Microtask faded_in))).
Proof.
  intros at_end wake e unloading loading faded_in.
  destruct (transition_flag_tracks_in_flight sample_clock sample_constructors
              unloading (ex_intro _ leaving_menu eq_refl))
    as (Hflag & _ & _ & _ & _ & _ & Hunload & _).
  destruct (transition_flag_tracks_in_flight sample_clock sample_constructors
              loading (ex_intro _ menu_loading eq_refl))
    as (_ & _ & _ & _ & _ & Hdone & _ & Hload & _).
  destruct (transition_flag_tracks_in_flight sample_clock sample_constructors
              faded_in (ex_intro _ _ eq_refl))
    as (_ & _ & _ & _ & Hfaded & _).
  split; [apply Hflag; eexists; vm_compute; reflexivity|].
  split; [apply (Hunload (mkFrame "overworld" "OverworldScene" 300 UnloadAwait) e);
          vm_compute; reflexivity|].
  split; [apply (Hload (mkFrame "menu" "MenuScene" 0
                                (LoadAwait (mkScene "MenuScene" 0)))
                       (mkScene "MenuScene" 0) e);
          vm_compute; reflexivity|].
  split; [apply (Hdone (mkFrame "menu" "MenuScene" 0
                                (LoadAwait (mkScene "MenuScene" 0)))
                       (mkScene "MenuScene" 0));
          vm_compute; reflexivity|].
  apply (Hfaded (mkFrame "overworld" "OverworldScene" 300
                         (FadeInAwait (mkScene "OverworldScene" 1)))
                (mkScene "OverworldScene" 1));
    vm_compute; reflexivity.
Defined.

(** C5, on the sample session: the menu's [load()] rejects. *)
Lemma load_rejection_leaves_no_scene_witness :
  let w := world (run sample_clock sample_constructors menu_loading
                      new_SceneManager) in
  let e := JsError "load failed" in
  let r := resume sample_clock sample_constructors (Settle (Some e)) w in
  value r = Some (Rejected e) /\
  getCurrentScene (world r) = None /\
  isTransitioning (world r) = false /\
  forall name d,
    ~ In ConsoleWarn
         (actions (loadScene sample_clock sample_constructors name d (world r))) /\
    forall cls, scenes (world r) !! name = Some cls ->
      exists rest,
        actions (loadScene sample_clock sample_constructors name d (world r)) =
        New cls :: rest.
Proof.
  intros w e r.
  apply (load_rejection_leaves_no_scene sample_clock sample_constructors w
           (mkFrame "menu" "MenuScene" 0 (LoadAwait (mkScene "MenuScene" 0)))
           (mkScene "MenuScene" 0) e).
  - exists menu_loading. reflexivity.
  - vm_compute. reflexivity.
  - reflexivity.
Defined.

(** C6, on the sample session: the battle scene is not registered. *)
Lemma loadScene_unregistered_witness :
  let w := world (run sample_clock sample_constructors menu_shown
                      new_SceneManager) in
  loadScene sample_clock sample_constructors "battle" 300 w =
  (Rejected (JsError (not_registered "battle")), w, []).
Proof.
  intro w.
  apply (loadScene_unregistered sample_clock sample_constructors w).
  - vm_compute. reflexivity.
  - vm_compute. reflexivity.
Defined.



(** C8, on the sample session: from the menu to the overworld with the
    default fade, with a frame update and a dropped call on the way. *)
Lemma loadScene_success_witness :
  let w := world (run sample_clock sample_constructors menu_shown
                      new_SceneManager) in
  let w' := world (transition sample_clock sample_constructors "overworld" 300
                     [Resume AnimationFrame; CallUpdate 16;
                      Resume AnimationFrame; Resume Microtask;
                      CallLoadScene "menu" 0;
                      Resume (Settle None); Resume (Settle None);
                      Resume AnimationFrame; Resume AnimationFrame;
                      Resume Microtask] w) in
  exists ns,
    getCurrentScene w' = Some ns /\ scene_class ns = "OverworldScene" /\
    allocated w <= container ns /\ In (container ns) (stage w') /\
    alpha w' !! container ns = Some 1%Q /\ isTransitioning w' = false.
Proof.
  intros w w'.
  apply (loadScene_success sample_clock sample_constructors w "overworld" 300
           "OverworldScene").
  - vm_compute. reflexivity.
  - vm_compute. reflexivity.
  - vm_compute. reflexivity.
Defined.

(** C8 as stated fails: while the menu's [unload()] is awaited, a call for
    the overworld, which is registered, succeeds (its promise is fulfilled)
    and leaves the flag set and the menu in the slot. *)
Lemma loadScene_fulfilled_without_loading :
  let w := world (run sample_clock sample_constructors leaving_menu
                      new_SceneManager) in
  let r := transition sample_clock sample_constructors "overworld" 0 [] w in
  scenes w !! "overworld" = Some "OverworldScene" /\
  value r = Resolved /\
  ~ (exists ns,
        getCurrentScene (world r) = Some ns /\
        scene_class ns = "OverworldScene" /\
        In (container ns) (stage (world r)) /\
        alpha (world r) !! container ns = Some 1%Q /\
        isTransitioning (world r) = false).
Proof.
  intros w r. split; [vm_compute; reflexivity|].
  split; [vm_compute; reflexivity|].
  intros (ns & _ & _ & _ & _ & Hflag). vm_compute in Hflag. discriminate Hflag.
Qed.

(** C9, on the sample session: from the menu to the overworld without a
    fade. *)
Lemma loadScene_without_fade_witness :
  let w := world (run sample_clock sample_constructors menu_shown
                      new_SceneManager) in
  let r := transition sample_clock sample_constructors "overworld" 0
                      [Resume (Settle None); Resume (Settle None)] w in
  opacity_writes (actions r) = [] /\
  exists ns,
    getCurrentScene (world r) = Some ns /\
    lifecycle (actions r) =
      retire (currentScene w) ++
      [New "OverworldScene"; Load ns; AddChild (container ns)].
Proof.
  intros w r.
  destruct (loadScene_without_fade sample_clock sample_constructors w
              "overworld" [Resume (Settle None); Resume (Settle None)])
    as (Hnone & _ & Hseq).
  split; [exact Hnone|]. apply Hseq.
  - vm_compute. reflexivity.
  - vm_compute. reflexivity.
  - vm_compute. reflexivity.
Defined.

(** C10, on the sample session: the menu is registered a second time, with
    another class, and loaded again. *)
Lemma registerScene_overwrites_witness :
  let w := world (run sample_clock sample_constructors menu_shown
                      new_SceneManager) in
  let w' := world (registerScene "menu" "TitleScene" w) in
  let r := transition sample_clock sample_constructors "menu" 0
                      [Resume (Settle None); Resume (Settle None)] w' in
  scenes w' !! "menu" = Some "TitleScene" /\
  exists ns,
    getCurrentScene (world r) = Some ns /\ scene_class ns = "TitleScene" /\
    lifecycle (actions r) =
      retire (currentScene w) ++
      [New "TitleScene"; Load ns; AddChild (container ns)].
Proof.
  intros w w' r.
  destruct (registerScene_overwrites sample_clock sample_constructors w "menu"
              "MenuScene" "TitleScene")
    as (_ & _ & Hnew & _ & _ & _ & _ & Hload).
  - vm_compute. reflexivity.
  - split; [exact Hnew|]. apply Hload.
    + vm_compute. reflexivity.
    + vm_compute. reflexivity.
Defined.

(** ** The environment *)

(** X9: [validateEnv()] cannot fail on the [ENV] that is loaded from the
    environment variables: a missing or empty [VITE_API_URL] has been
    replaced by the default before it is checked, although the check does
    throw on an [ENV] whose [API_URL] is empty. *)
Theorem validateEnv_never_throws (VITE_API_URL VITE_GAME_DEBUG : option string) :
  Env.validateEnv (Env.load VITE_API_URL VITE_GAME_DEBUG) = None /\
  (VITE_API_URL = None \/ VITE_API_URL = Some EmptyString ->
   Env.API_URL (Env.load VITE_API_URL VITE_GAME_DEBUG) =
   "http://localhost:8000"%string) /\
  forall debug, Env.validateEnv (Env.mkENV EmptyString debug) <> None.
Proof.
  split; [|split].
  - unfold Env.validateEnv, Env.load, Env.or_default. cbn [Env.API_URL].
    destruct VITE_API_URL as [s|]; [destruct (Env.truthy s) eqn:E|];
      cbn iota; rewrite ?E; reflexivity.
  - unfold Env.load, Env.or_default. cbn [Env.API_URL].
    intros [->| ->]; reflexivity.
  - intros debug. discriminate.
Qed.

(** ** The player store *)

Section PlayerStoreFacts.
Import PlayerStore.
Local Open Scope Z_scope.

Lemma level_for_monotone (x y : Z) : x <= y -> level_for x <= level_for y.
Proof.
  intros H. unfold level_for, XP_PER_LEVEL.
  apply Z.add_le_mono_r. apply Z.div_le_mono; lia.
Qed.

Lemma number_add_safe (a b : Z) : safe (a + b) -> number_add a b = a + b.
Proof.
  unfold safe, number_add. change (2 ^ 53) with 9007199254740992.
  intros H. cbv zeta.
  destruct (Z.leb_spec (Z.log2 (Z.abs (a + b)) - 52) 0) as [_|He];
    [reflexivity|].
  exfalso.
  destruct (Z.eq_dec (a + b) 0) as [E|E];
    [rewrite E in He; vm_compute in He; discriminate He|].
  assert (Hlog : Z.log2 (Z.abs (a + b)) < 53).
  { apply Z.log2_lt_pow2; [lia|].
    change (2 ^ 53) with 9007199254740992. lia. }
  lia.
Qed.

Lemma rounded_quotient_floor (n P : Z) :
  512 <= P ->
  (Z.sgn n *
   round_to_even (Z.abs n * P / 1000) (Z.abs n * P mod 1000) 1000) / P =
  n / 1000.
Proof.
  intros HP.
  pose proof (Z.div_mod (Z.abs n * P) 1000 ltac:(lia)) as Hq.
  pose proof (Z.mod_pos_bound (Z.abs n * P) 1000 ltac:(lia)) as Hr.
  pose proof (Z.div_mod n 1000 ltac:(lia)) as HQ.
  pose proof (Z.mod_pos_bound n 1000 ltac:(lia)) as HR.
  set (q := Z.abs n * P / 1000) in *. set (r := Z.abs n * P mod 1000) in *.
  set (Q := n / 1000) in *. set (R := n mod 1000) in *.
  assert (HnP : n * P = 1000 * (Q * P) + R * P) by nia.
  assert (HU : 0 <= R * P <= 999 * P) by nia.
  assert (HU1 : 1 <= R -> P <= R * P) by nia.
  assert (Hm : Q * P <= Z.sgn n * round_to_even q r 1000 < Q * P + P).
  { unfold round_to_even.
    destruct (Z.ltb_spec (2 * r) 1000), (Z.ltb_spec 1000 (2 * r)),
      (Z.even q); destruct (Z.sgn_spec n) as [[Hn ->]|[[Hn ->]|[Hn ->]]];
      try lia.
    all: first [ rewrite (Z.abs_eq n) in Hq by lia
               | rewrite (Z.abs_neq n) in Hq by lia ]; lia. }
  symmetry.
  apply (Z.div_unique _ P Q (Z.sgn n * round_to_even q r 1000 - Q * P)); lia.
Qed.

Lemma floor_quotient_safe (n : Z) :
  safe n -> floor_quotient n XP_PER_LEVEL = n / XP_PER_LEVEL.
Proof.
  unfold safe, floor_quotient, XP_PER_LEVEL.
  change (2 ^ 53) with 9007199254740992. intros H.
  destruct (Z.eqb_spec n 0) as [->|Hn]; [reflexivity|]. cbv zeta.
  change (Z.log2 1000) with 9.
  assert (Hlog : Z.log2 (Z.abs n) < 53).
  { apply Z.log2_lt_pow2; [lia|].
    change (2 ^ 53) with 9007199254740992. lia. }
  set (k := Z.log2 (Z.abs n) - 9) in *.
  set (l := if (if 0 <=? k then 1000 * 2 ^ k <=? Z.abs n
                else 1000 <=? Z.abs n * 2 ^ (- k)) then k else k - 1).
  assert (Hl : l <= 43).
  { subst l. destruct (if 0 <=? k then _ else _); lia. }
  destruct (Z.leb_spec 0 (l - 52)) as [?|He]; [lia|].
  apply rounded_quotient_floor.
  change 512 with (2 ^ 9). apply Z.pow_le_mono_r; lia.
Qed.

(** Past the safe integers the sums of the source are not those of the
    integers: from 2^53, one point added twice is lost twice. *)
Example number_add_past_safe :
  number_add (number_add (2 ^ 53) 1) 1 = 2 ^ 53 /\
  number_add (2 ^ 53) (number_add 1 1) = 2 ^ 53 + 2.
Proof. split; vm_compute; reflexivity. Qed.

(** X10: [addExperience], for safe integers, on which the sum and the
    floored quotient of the source are those of the integers: it adds the
    points, raises the level to the one the new total stands for when that
    is higher, and changes nothing else, neither in the profile nor in the
    rest of the store. So the level is never lowered and never left below
    the level of the new total; for a profile whose level is the one its
    total stands for, a gain that is not negative keeps it so. Without a
    profile it does nothing. *)
Theorem addExperience_level (xp : Z) (st : PlayerState) (p : PlayerProfile) :
  profile st = Some p ->
  safe (experience_points p) -> safe xp -> safe (experience_points p + xp) ->
  number_add (experience_points p) xp = experience_points p + xp /\
  floor_quotient (experience_points p + xp) XP_PER_LEVEL + 1 =
    level_for (experience_points p + xp) /\
  exists p',
    addExperience xp st =
      mkState (Some p') (party st) (collection st) (isLoading st) (error st) /\
    p' = mkProfile (id p) (user_id p) (username p) (name p) (trainer_name p)
                   (level p') (experience_points p')
                   (coins p) (current_region_id p) /\
    experience_points p' = experience_points p + xp /\
    level p' = Z.max (level p) (level_for (experience_points p')) /\
    level p <= level p' /\
    level_for (experience_points p') <= level p' /\
    (0 <= xp -> level p = level_for (experience_points p) ->
     level p' = level_for (experience_points p')) /\
    addExperience xp (set_profile None st) = set_profile None st.
Proof.
  intros Hp _ _ Hsum.
  split; [now apply number_add_safe|].
  split; [unfold level_for; now rewrite floor_quotient_safe|].
  unfold addExperience. rewrite Hp. cbn.
  eexists. split; [reflexivity|]. cbn.
  fold (level_for (experience_points p + xp)).
  repeat split; try lia.
  intros Hxp Hlvl. rewrite Hlvl.
  apply Z.max_r. apply level_for_monotone. lia.
Qed.

(** X11: two gains of experience that are not negative add up, as long as
    the totals are safe integers: applying them one after the other gives
    the state that applying their sum gives, the sums of the source being
    those of the integers whichever way they are taken. *)
Theorem addExperience_add (a b : Z) (st : PlayerState) :
  0 <= a -> 0 <= b -> safe (a + b) ->
  (forall p, profile st = Some p ->
             safe (experience_points p) /\
             safe (experience_points p + (a + b))) ->
  addExperience b (addExperience a st) = addExperience (a + b) st /\
  forall p, profile st = Some p ->
    number_add (number_add (experience_points p) a) b =
      experience_points p + (a + b) /\
    number_add (experience_points p) (number_add a b) =
      experience_points p + (a + b).
Proof.
  intros Ha Hb Hab Hsafe. split.
  - unfold addExperience.
    destruct (profile st) as [p|] eqn:Hp; cbn; [|now rewrite Hp].
    unfold set_profile. cbn. f_equal. f_equal.
    fold (level_for (experience_points p + a)).
    fold (level_for (experience_points p + a + b)).
    fold (level_for (experience_points p + (a + b))).
    rewrite <- Z.add_assoc.
    f_equal.
    pose proof (level_for_monotone (experience_points p + a)
                  (experience_points p + (a + b))) as Hm.
    lia.
  - intros p Hp. destruct (Hsafe p Hp) as [Hx Hsum].
    assert (Hxa : safe (experience_points p + a)).
    { unfold safe in *. lia. }
    rewrite (number_add_safe (experience_points p) a Hxa).
    rewrite (number_add_safe a b Hab).
    rewrite !number_add_safe; [split; lia| |];
      unfold safe in *; lia.
Qed.

End PlayerStoreFacts.

(** ** The API client and the authentication *)

Section ApiFacts.
Import ApiClient.

Lemma truthy_append (p s : string) :
  Env.truthy p = true -> Env.truthy (p ++ s)%string = true.
Proof. destruct p; [discriminate|reflexivity]. Qed.


Lemma rethrow_message (e : Raised) :
  exists m, rethrow e = ThrowsError m /\ Env.truthy m = true.
Proof.
  destruct e as [name message|]; cbn.
  - destruct (String.eqb name "AbortError"); eexists; split; reflexivity.
  - eexists; split; reflexivity.
Qed.


(** X12: [request] changes the client in one case only: a response with
    status 401 whose body is parsed clears the token, in memory and in the
    storage. Every other outcome leaves both as they were: a success, any
    other error status, a rejected [fetch], and also a 401 whose body is
    not JSON. *)
Theorem request_clears_token_on_401_only (st : State) :
  (forall data, snd (request (Responds 401 (inr data)) st) = clearToken st) /\
  (forall e, snd (request (Responds 401 (inl e)) st) = st) /\
  (forall o, (forall data, o <> Responds 401 (inr data)) ->
             snd (request o st) = st).
Proof.
  split; [|split].
  - intros [|data]; reflexivity.
  - intros e. reflexivity.
  - intros o Ho. destruct o as [e|status [e|data]]; try reflexivity.
    cbn. destruct (ok status); [reflexivity|].
    destruct (Z.eqb_spec status 401) as [->|Hne];
      [now destruct (Ho data)|].
    destruct data; reflexivity.
Qed.


(** X14: the headers of a request. With a token that is not empty the
    [Authorization] header is the bearer of that token, whatever the caller
    passed under that key; with no token or an empty one, although the
    latter counts as authenticated, the header is the caller's, if any. The
    caller's other headers win over the defaults. *)
Theorem request_headers_authorization (h : gmap string string) (st : State) :
  (forall t, token st = Some t -> Env.truthy t = true ->
             request_headers h st !! "Authorization"%string =
             Some ("Bearer " ++ t)%string) /\
  (token st = None \/ token st = Some EmptyString ->
   request_headers h st !! "Authorization"%string =
   h !! "Authorization"%string) /\
  (token st = Some EmptyString -> AuthService.isAuthenticated st = true) /\
  (forall k v, k <> "Authorization"%string -> h !! k = Some v ->
               request_headers h st !! k = Some v) /\
  (h !! "Content-Type"%string = None ->
   request_headers h st !! "Content-Type"%string =
   Some "application/json"%string).
Proof.
  unfold request_headers, AuthService.isAuthenticated, getToken.
  split; [|split; [|split; [|split]]].
  - intros t -> Ht. rewrite Ht. apply lookup_insert_eq.
  - intros [-> | ->]; cbn [Env.truthy].
    + rewrite lookup_union. destruct (h !! "Authorization"%string); reflexivity.
    + rewrite lookup_union. destruct (h !! "Authorization"%string); reflexivity.
  - intros ->. reflexivity.
  - intros k v Hk Hv.
    assert (Hu : forall m : gmap string string, (h ∪ m) !! k = Some v).
    { intros m. apply lookup_union_Some_l. exact Hv. }
    destruct (token st) as [t|]; [destruct (Env.truthy t)|]; try apply Hu.
    rewrite lookup_insert_ne by congruence. apply Hu.
  - intros Hc.
    assert (Hu : (h ∪ <["Content-Type":="application/json"%string]>
                        (<["Accept":="application/json"%string]> ∅))
                 !! "Content-Type"%string = Some "application/json"%string).
    { rewrite lookup_union_r by exact Hc. apply lookup_insert_eq. }
    destruct (token st) as [t|]; [destruct (Env.truthy t)|]; try apply Hu.
    rewrite lookup_insert_ne by discriminate. apply Hu.
Qed.


End ApiFacts.

Section AuthFacts.
Import ApiClient.

(** X16: a logout always leaves the store logged out, but it removes the
    token from the client and the storage only when the request succeeded
    or was answered by a 401 with a parsed body. After any other failure
    the token is still stored, and what [Game.init()] does on the next
    start, a new client and [loadTokenFromStorage()], finds the user
    authenticated again. *)
Theorem logout_then_reload (o : Outcome) (s : AuthStore.AuthState)
        (st : State) :
  in_sync st ->
  let s' := fst (AuthStore.logout o s st) in
  let st' := snd (AuthStore.logout o s st) in
  AuthStore.isAuthenticated s' = false /\ AuthStore.token s' = None /\
  (AuthStore.isAuthenticated
     (AuthStore.loadTokenFromStorage AuthStore.initial
        (new_ApiClient (localStorage st'))) = true <->
   is_Some (token st) /\
   forall status data,
     o = Responds status (inr data) -> ok status = false /\ status <> 401%Z).
Proof.
  intros Hs. unfold AuthStore.logout, AuthService.logout.
  assert (Hload : forall x : State,
             in_sync x ->
             (AuthStore.isAuthenticated
                (AuthStore.loadTokenFromStorage AuthStore.initial
                   (new_ApiClient (localStorage x))) = true <->
              is_Some (token x))).
  { intros [tk ls] Hx. unfold in_sync in Hx. cbn in Hx.
    unfold AuthStore.loadTokenFromStorage, AuthService.isAuthenticated,
      getToken, new_ApiClient, loadToken. cbn. rewrite <- Hx.
    destruct tk; cbn; split; eauto; try discriminate.
    intros [? ?]; discriminate. }
  assert (Hclr : forall x : State, ~ is_Some (token (clearToken x))).
  { intros x [? H]. discriminate H. }
  assert (Hclr_sync : forall x, in_sync (clearToken x)).
  { intros x. unfold in_sync, clearToken. cbn.
    symmetry. apply lookup_delete_eq. }
  destruct o as [e|status [e|data]]; cbn.
  - destruct (rethrow_message e) as (m & -> & _). cbn.
    split; [reflexivity|]. split; [reflexivity|].
    rewrite (Hload st Hs). split; [|tauto].
    intros H. split; [exact H|]. intros status data [=].
  - destruct (rethrow_message e) as (m & -> & _). cbn.
    split; [reflexivity|]. split; [reflexivity|].
    rewrite (Hload st Hs). split; [|tauto].
    intros H. split; [exact H|]. intros status' data [=].
  - destruct (ok status) eqn:Hok; cbn.
    + split; [reflexivity|]. split; [reflexivity|].
      rewrite (Hload _ (Hclr_sync st)). split.
      * intros H. now apply Hclr in H.
      * intros [_ H]. destruct (H status data eq_refl) as [H1 _]. congruence.
    + destruct (Z.eqb_spec status 401) as [->|Hne]; destruct data as [|d]; cbn;
        (split; [reflexivity|]); (split; [reflexivity|]).
      1,2: rewrite (Hload _ (Hclr_sync st)); split;
        [ intros H; now apply Hclr in H
        | intros [_ H]; destruct (H 401%Z _ eq_refl) as [_ H2]; congruence ].
      all: rewrite (Hload st Hs); split; [|tauto]; intros H;
        split; [exact H|]; intros status' data' [= <- <-]; split; assumption.
Qed.


End AuthFacts.

(** ** The asset loader *)

Section AssetLoaderFacts.
Import AssetLoader.

(** X18: the cache of the asset loader is keyed by the name alone, not by
    the kind of asset: after a spritesheet has been loaded under a name,
    [loadTexture] with that name loads nothing and returns the spritesheet,
    whatever the path asked for. *)
Theorem loadTexture_after_loadSpriteSheet (name imagePath path : string)
        (jsonPath : option string) (loaded' : Thrown + Texture)
        (t : Texture) (json : Thrown + string) (parsed : option Thrown)
        (cache : gmap string Asset) (sheet : Asset) :
  hasAsset name cache = false ->
  fst (fst (loadSpriteSheet name imagePath jsonPath (inr t) json parsed cache))
    = inr sheet ->
  let cache' :=
    snd (fst (loadSpriteSheet name imagePath jsonPath (inr t) json parsed
                              cache)) in
  loadTexture name path loaded' cache' = (inr sheet, cache', []) /\
  exists data, sheet = SpritesheetAsset t data.
Proof.
  unfold hasAsset, loadSpriteSheet, loadTexture, sheet_work. intros Hmiss.
  destruct (cache !! name) eqn:Hc; [discriminate|].
  destruct jsonPath as [p|]; [destruct (Env.truthy p)|];
    try destruct json as [e|data]; try destruct parsed as [e'|];
    cbn; try discriminate; intros [= <-];
    rewrite lookup_insert_eq; split; eauto.
Qed.

(** X19: a first [loadTexture] under a name loads the path once. When the
    load succeeds the texture is returned and cached, so that [hasAsset]
    holds, [getAsset] returns it and a second call, with any path, returns
    it too without loading; when the load fails the failure is thrown again
    and the cache is left as it was, so that a later call loads again. *)
Theorem loadTexture_first (name path path' : string)
        (loaded loaded' : Thrown + Texture) (cache : gmap string Asset) :
  hasAsset name cache = false ->
  let r := loadTexture name path loaded cache in
  let cache' := snd (fst r) in
  match loaded with
  | inr t =>
      r = (inr (TextureAsset t), <[name := TextureAsset t]> cache,
           [AssetsLoad path]) /\
      hasAsset name cache' = true /\
      getAsset name cache' = Some (TextureAsset t) /\
      loadTexture name path' loaded' cache' =
        (inr (TextureAsset t), cache', [])
  | inl e =>
      r = (inl e, cache, [AssetsLoad path; ConsoleError name e]) /\
      hasAsset name cache' = false /\
      exists eff, snd (loadTexture name path' loaded' cache') =
                  AssetsLoad path' :: eff
  end.
Proof.
  unfold hasAsset, getAsset, loadTexture. intros Hmiss.
  destruct (cache !! name) eqn:Hc; [discriminate|].
  destruct loaded as [e|t]; cbn.
  - rewrite Hc. split; [reflexivity|]. split; [reflexivity|].
    destruct loaded' as [e'|t']; cbn; eexists; reflexivity.
  - rewrite lookup_insert_eq. repeat split.
Qed.

(** X20: two calls of [loadTexture] for one name that overlap, the second
    made before the first has ended, both find the name missing and both
    load; each caller gets its own texture, and the cache keeps the one
    whose load ended last. *)
Theorem overlapping_loads (name path1 path2 : string) (t1 t2 : Texture)
        (cache : gmap string Asset) :
  hasAsset name cache = false ->
  let end1 := loadTexture_end name (inr t1) cache in
  let end2 := loadTexture_end name (inr t2) (snd (fst end1)) in
  snd (loadTexture name path1 (inr t1) cache) = [AssetsLoad path1] /\
  snd (loadTexture name path2 (inr t2) cache) = [AssetsLoad path2] /\
  fst (fst end1) = inr (TextureAsset t1) /\
  fst (fst end2) = inr (TextureAsset t2) /\
  getAsset name (snd (fst end2)) = Some (TextureAsset t2) /\
  snd (fst end2) = <[name := TextureAsset t2]> cache.
Proof.
  unfold hasAsset, loadTexture, loadTexture_end. intros Hmiss.
  destruct (cache !! name) eqn:Hc; [discriminate|]. cbn.
  unfold getAsset. rewrite lookup_insert_eq.
  repeat split. apply insert_insert_eq.
Qed.

Lemma complete_keeps (ends : list (string * (Thrown + Asset)))
      (cache : gmap string Asset) (n : string) :
  hasAsset n cache = true -> hasAsset n (complete ends cache) = true.
Proof.
  revert cache. induction ends as [|[m work] ends IH]; intros cache H;
    [exact H|].
  cbn [complete]. apply IH. destruct work as [e|a]; cbn; [exact H|].
  unfold hasAsset in *. rewrite lookup_insert.
  case_decide; [reflexivity|exact H].
Qed.

Lemma complete_stores (ends : list (string * (Thrown + Asset)))
      (cache : gmap string Asset) (n : string) :
  all_fulfilled ends = true -> In n (map fst ends) ->
  hasAsset n (complete ends cache) = true.
Proof.
  revert cache. induction ends as [|[m work] ends IH]; intros cache Hall Hin;
    [destruct Hin|].
  cbn in Hall. apply andb_prop in Hall. destruct Hall as [Hw Hall].
  destruct work as [e|a]; [discriminate|].
  cbn [complete]. destruct Hin as [Hm|Hin].
  - cbn in Hm. subst m. apply complete_keeps. cbn.
    unfold hasAsset. now rewrite lookup_insert_eq.
  - now apply IH.
Qed.

(** X21: when [loadMultiple] is fulfilled, every name it was given is in
    the cache, whatever the order the loads ended in: the names that were
    cached already still are, and each of the others has been stored by the
    load that was started for it. *)
Theorem loadMultiple_caches_all (names : list string)
        (ends : list (string * (Thrown + Asset)))
        (cache : gmap string Asset) :
  Permutation (map fst ends) (pending names cache) ->
  all_fulfilled ends = true ->
  forall n, In n names -> hasAsset n (complete ends cache) = true.
Proof.
  intros Hperm Hall n Hn.
  destruct (hasAsset n cache) eqn:Hc.
  - now apply complete_keeps.
  - apply complete_stores; [exact Hall|].
    apply (Permutation_in _ (Permutation_sym Hperm)).
    unfold pending. apply filter_In. split; [exact Hn|]. now rewrite Hc.
Qed.

End AssetLoaderFacts.

(** ** The quiz scene *)

Section QuizSceneFacts.
Import QuizScene.

Lemma includes_In (c : Z) (l : list Z) : includes c l = true <-> In c l.
Proof.
  unfold includes. rewrite existsb_exists. split.
  - intros (x & Hx & Heq). apply Z.eqb_eq in Heq. now subst.
  - intros H. exists c. split; [exact H|apply Z.eqb_refl].
Qed.

Lemma NoDup_filter_list (f : Z -> bool) (l : list Z) :
  List.NoDup l -> List.NoDup (List.filter f l).
Proof.
  induction 1 as [|x l Hx Hl IH]; cbn; [constructor|].
  destruct (f x); [|exact IH].
  constructor; [|exact IH]. intros Hin. apply filter_In in Hin. tauto.
Qed.

Lemma NoDup_snoc (c : Z) (l : list Z) :
  List.NoDup l -> ~ In c l -> List.NoDup (l ++ [c]).
Proof.
  induction 1 as [|x l Hx Hl IH]; cbn; intros Hc.
  - constructor; [tauto|constructor].
  - constructor.
    + rewrite in_app_iff. cbn. intros [H|[H|[]]]; [tauto|subst; tauto].
    + apply IH. tauto.
Qed.

Lemma handleChoiceSelect_no_duplicates (q c : Z) (multi : bool)
      (m : gmap Z (list Z)) :
  no_duplicates m -> no_duplicates (handleChoiceSelect q c multi m).
Proof.
  intros Hm q' l. unfold handleChoiceSelect. rewrite lookup_insert.
  case_decide as Hq; [|apply Hm].
  intros [= <-].
  assert (Hsel : List.NoDup (default [] (m !! q))).
  { destruct (m !! q) as [l0|] eqn:E; cbn; [eapply Hm, E|constructor]. }
  destruct multi.
  - destruct (includes c (default [] (m !! q))) eqn:Hinc.
    + now apply NoDup_filter_list.
    + apply NoDup_snoc; [exact Hsel|].
      intros Hin. apply includes_In in Hin. congruence.
  - constructor; [intros []|constructor].
Qed.

(** X22: however the choices are clicked, on whichever questions and in
    either mode, no question ever has the same choice selected twice: every
    list in [selectedAnswers], which is what is submitted, is free of
    duplicates. *)
Theorem selections_have_no_duplicates (cs : list (Z * Z * bool)) (q : Z)
        (l : list Z) :
  clicks cs ∅ !! q = Some l -> List.NoDup l.
Proof.
  assert (H : forall m, no_duplicates m -> no_duplicates (clicks cs m)).
  { induction cs as [|[[q' c] multi] cs IH]; intros m Hm; [exact Hm|].
    cbn [clicks]. apply IH. now apply handleChoiceSelect_no_duplicates. }
  apply (H ∅). intros q' l' Hl. rewrite lookup_empty in Hl. discriminate.
Qed.

(** X23: in a question with several correct answers a click toggles the
    choice and leaves the others alone, and a second click undoes the
    first as far as what is selected goes. A question whose last choice
    was toggled off keeps an entry, an empty one, that [handleSubmit]
    counts as unanswered. *)
Theorem toggle_choice (q c : Z) (m : gmap Z (list Z)) :
  let sel := fun m' => default [] (m' !! q) in
  let m1 := handleChoiceSelect q c true m in
  let m2 := handleChoiceSelect q c true m1 in
  (In c (sel m1) <-> ~ In c (sel m)) /\
  (forall x, x <> c -> (In x (sel m1) <-> In x (sel m))) /\
  (forall x, In x (sel m2) <-> In x (sel m)) /\
  (forall qd, sel m = [c] ->
              m1 !! q = Some [] /\ unanswered m1 (mkQuestion q qd) = true).
Proof.
  cbv zeta.
  assert (Hstep : forall m0 : gmap Z (list Z),
             let s0 := default [] (m0 !! q) in
             let s1 := default [] (handleChoiceSelect q c true m0 !! q) in
             (In c s1 <-> ~ In c s0) /\
             (forall x, x <> c -> (In x s1 <-> In x s0))).
  { intros m0. cbv zeta. unfold handleChoiceSelect.
    rewrite lookup_insert_eq. cbn [default from_option id].
    set (s0 := default [] (m0 !! q)).
    destruct (includes c s0) eqn:Hinc.
    - apply includes_In in Hinc. split.
      + rewrite filter_In. rewrite Z.eqb_refl. cbn. split; [intros [_ [=]]|tauto].
      + intros x Hx. rewrite filter_In.
        destruct (Z.eqb_spec x c); [congruence|]. cbn. tauto.
    - assert (Hn : ~ In c s0) by (rewrite <- includes_In; congruence).
      split.
      + rewrite in_app_iff. cbn. tauto.
      + intros x Hx. rewrite in_app_iff. cbn. split; [|tauto].
        intros [H|[H|[]]]; [exact H|congruence]. }
  destruct (Hstep m) as [H1 H1'].
  destruct (Hstep (handleChoiceSelect q c true m)) as [H2 H2'].
  split; [exact H1|]. split; [exact H1'|]. split.
  - intros x. destruct (Z.eq_dec x c) as [->|Hx].
    + rewrite H2, H1.
      destruct (in_dec Z.eq_dec c (default [] (m !! q))); tauto.
    + rewrite (H2' x Hx). apply H1', Hx.
  - intros qd Hsel. unfold handleChoiceSelect, unanswered. cbn [q_id].
    rewrite Hsel. cbn. rewrite Z.eqb_refl. cbn.
    rewrite lookup_insert_eq. split; reflexivity.
Qed.

(** X24: [handleSubmit] goes on to submit exactly when the scene is not
    loading, has its quiz data and an attempt id that is neither missing
    nor 0, and every question of the quiz has an entry that is not empty.
    This is also what decides the submission that [update] asks for when
    the time is up: an unanswered question holds it back. *)
Theorem handleSubmit_submits (isLoading : bool)
        (quizData : option (list Question)) (attemptId : option Z)
        (selectedAnswers : gmap Z (list Z)) :
  handleSubmit isLoading quizData attemptId selectedAnswers = Submits <->
  isLoading = false /\
  (exists a, attemptId = Some a /\ a <> 0%Z) /\
  exists questions,
    quizData = Some questions /\
    forall question, In question questions ->
      exists c l, selectedAnswers !! q_id question = Some (c :: l).
Proof.
  unfold handleSubmit.
  destruct quizData as [questions|], attemptId as [a|];
    try (split; [discriminate|]; intros (_ & (a' & Ha & _) & (qs & Hq & _));
         discriminate).
  destruct isLoading; cbn [orb].
  { split; [discriminate|]. intros [H _]. discriminate. }
  destruct (Z.eqb_spec a 0) as [->|Ha].
  { split; [discriminate|]. intros (_ & (a' & [= <-] & Hne) & _). congruence. }
  assert (Hfilter : List.filter (unanswered selectedAnswers) questions = [] <->
                    forall question, In question questions ->
                      exists c l,
                        selectedAnswers !! q_id question = Some (c :: l)).
  { induction questions as [|x qs IH]; cbn.
    - split; [intros _ ? []|reflexivity].
    - unfold unanswered at 1.
      destruct (selectedAnswers !! q_id x) as [[|c l]|] eqn:E; cbn.
      + split; [discriminate|]. intros H.
        destruct (H x (or_introl eq_refl)) as (c & l & Hc). congruence.
      + rewrite IH. split.
        * intros H y [<-|Hy]; [eauto|now apply H].
        * intros H y Hy. apply H. now right.
      + split; [discriminate|]. intros H.
        destruct (H x (or_introl eq_refl)) as (c & l & Hc). congruence. }
  destruct (List.filter (unanswered selectedAnswers) questions) as [|x rest]
    eqn:Hf; cbn.
  - split; [|reflexivity]. intros _. split; [reflexivity|].
    split; [eauto|]. exists questions. split; [reflexivity|].
    now apply Hfilter.
  - split; [discriminate|].
    intros (_ & _ & (qs & [= <-] & Hall)).
    apply Hfilter in Hall. discriminate.
Qed.

(** X25: the index of the current question stays in range however the
    navigation buttons are clicked: from the first question it is never
    negative and, when the quiz has questions, always the index of one of
    them. *)
Theorem navigation_in_range (questions : list Question) (bs : list bool) :
  let index := navigate (Some questions) bs 0 in
  (0 <= index)%Z /\
  (questions <> [] -> (index < Z.of_nat (length questions))%Z).
Proof.
  cbv zeta.
  assert (H : forall i,
             (0 <= i)%Z ->
             (questions <> [] -> (i < Z.of_nat (length questions))%Z) ->
             (0 <= navigate (Some questions) bs i)%Z /\
             (questions <> [] ->
              (navigate (Some questions) bs i < Z.of_nat (length questions))%Z)).
  { induction bs as [|b bs IH]; intros i Hi Hlt; [now split|].
    destruct b; cbn [navigate]; apply IH.
    - unfold goToNextQuestion.
      destruct (Z.ltb_spec i (Z.of_nat (length questions) - 1)); lia.
    - unfold goToNextQuestion. intros Hne. specialize (Hlt Hne).
      destruct (Z.ltb_spec i (Z.of_nat (length questions) - 1)); lia.
    - unfold goToPreviousQuestion. destruct (Z.ltb_spec 0 i); lia.
    - unfold goToPreviousQuestion. intros Hne. specialize (Hlt Hne).
      destruct (Z.ltb_spec 0 i); lia. }
  apply H; [lia|]. intros Hne. destruct questions; [congruence|]. cbn. lia.
Qed.

(** X26: the rewards of a quiz can only add to what the player has: the
    experience points, the coins and the level after [handleSubmit] has
    given them are at least what they were, whatever the amounts in the
    result, since an amount that is not positive is not passed on. *)
Theorem rewards_never_take_away (xp c : Z) (st : PlayerStore.PlayerState)
        (p : PlayerStore.PlayerProfile) :
  PlayerStore.profile st = Some p ->
  exists p',
    PlayerStore.profile (give_rewards xp c st) = Some p' /\
    (PlayerStore.experience_points p <= PlayerStore.experience_points p')%Z /\
    (PlayerStore.coins p <= PlayerStore.coins p')%Z /\
    (PlayerStore.level p <= PlayerStore.level p')%Z.
Proof.
  intros Hp. unfold give_rewards, PlayerStore.addExperience, PlayerStore.addCoins.
  destruct (Z.ltb_spec 0 xp), (Z.ltb_spec 0 c); rewrite ?Hp; cbn;
    rewrite ?Hp; cbn; eexists; (split; [reflexivity|]); cbn; lia.
Qed.

End QuizSceneFacts.

(** ** More properties on sample inputs *)

(** X1, while the menu's [unload()] is awaited: the menu still gets the
    frame. *)
Lemma update_during_transition_witness :
  let w := world (run sample_clock sample_constructors leaving_menu
                      new_SceneManager) in
  world (update 16 w) = w /\
  exists old, getCurrentScene w = Some old /\
              actions (update 16 w) = [Update old 16].
Proof.
  intro w.
  apply (update_during_transition sample_clock sample_constructors w
           (mkFrame "overworld" "OverworldScene" 300 UnloadAwait) 16).
  - exists leaving_menu. reflexivity.
  - vm_compute. reflexivity.
Defined.

(** X2, once the menu has destroyed its container in its [unload()]: the
    slot still holds the menu and the stage is empty. *)
Lemma stage_holds_active_scene_witness :
  let w := world (run sample_clock sample_constructors
                      (leaving_menu ++ [BaseSceneUnload]) new_SceneManager) in
  getCurrentScene w = Some (mkScene "MenuScene" 0) /\
  match getCurrentScene w with
  | Some s => stage w = [container s] \/ stage w = []
  | None => stage w = []
  end.
Proof.
  intro w. split; [vm_compute; reflexivity|].
  apply (stage_holds_active_scene sample_clock sample_constructors w).
  exists (leaving_menu ++ [BaseSceneUnload]). reflexivity.
Defined.

(** X3, on the sample session: the menu has faded out when its [unload()]
    rejects. *)
Lemma unload_rejection_after_fade_out_witness :
  let w := world (run sample_clock sample_constructors leaving_menu
                      new_SceneManager) in
  let w' := world (resume sample_clock sample_constructors
                          (Settle (Some (JsError "unload failed"))) w) in
  isTransitioning w' = false /\
  exists old a,
    getCurrentScene w' = Some old /\
    (stage w' = [container old] \/ stage w' = []) /\
    alpha w' !! container old = Some a /\ (a == 0)%Q.
Proof.
  intros w w'.
  apply (unload_rejection_after_fade_out sample_clock sample_constructors w
           (mkFrame "overworld" "OverworldScene" 300 UnloadAwait)).
  - exists leaving_menu. reflexivity.
  - vm_compute. reflexivity.
  - reflexivity.
  - vm_compute. reflexivity.
Defined.

(** X4, a third of the way through a fade-in of 300 ms. *)
Lemma fade_in_frame_witness :
  let w := set_clock_reads 1 new_SceneManager in
  let r := animate_in sample_clock 0 0 300 w in
  let elapsed := (sample_clock 1 - 0)%Z in
  exists a,
    actions r = [SetAlpha 0 a] /\ alpha (world r) !! 0 = Some a /\
    a = min1 (inject_Z elapsed / 300) /\
    ((inject_Z elapsed < 300)%Q -> a = (inject_Z elapsed / 300)%Q) /\
    ((300 <= inject_Z elapsed)%Q -> a = 1%Q) /\
    (0 <= a)%Q /\ (a <= 1)%Q /\
    (value r = false <-> (300 <= inject_Z elapsed)%Q) /\
    (value r = false -> a = 1%Q).
Proof.
  intros w r elapsed.
  apply (fade_in_frame sample_clock 0 0%Z 300 w).
  - reflexivity.
  - vm_compute. discriminate.
Defined.

(** X5, a third of the way through a fade-out of 300 ms. *)
Lemma fade_out_frame_witness :
  let w := set_clock_reads 1 new_SceneManager in
  let r := animate_out sample_clock 0 1 0 300 w in
  exists a,
    actions r = [SetAlpha 0 a] /\ alpha (world r) !! 0 = Some a /\
    (0 <= a)%Q /\ (a <= 1)%Q /\
    (value r = false <-> (300 <= inject_Z (sample_clock 1 - 0))%Q) /\
    (value r = false -> (a == 0)%Q).
Proof.
  intros w r.
  apply (fade_out_frame sample_clock 0 1 0%Z 300 w).
  - reflexivity.
  - vm_compute. discriminate.
  - vm_compute. discriminate.
Defined.

(** X6, on the sample session: from the menu to the overworld without a
    fade. *)
Lemma loadScene_without_fade_completes_witness :
  let w := world (run sample_clock sample_constructors menu_shown
                      new_SceneManager) in
  let r := transition sample_clock sample_constructors "overworld" 0
                      (hooks_resolve (currentScene w)) w in
  value r = Resolved /\ clock_reads (world r) = clock_reads w /\
  getCurrentScene (world r) = Some (mkScene "OverworldScene" (allocated w)).
Proof.
  intro w.
  apply (loadScene_without_fade_completes sample_clock sample_constructors w
           "overworld" 0 "OverworldScene").
  - vm_compute. reflexivity.
  - vm_compute. reflexivity.
  - reflexivity.
  - reflexivity.
Defined.

(** X7, on the sample session with an overworld whose constructor throws. *)
Lemma constructor_throw_after_unload_witness :
  let throws := fun (k : nat) (_ : SceneClass) =>
                  if Nat.eqb k 1 then Some (JsError "no assets") else None in
  let w := world (run sample_clock throws leaving_menu new_SceneManager) in
  let r := resume sample_clock throws (Settle None) w in
  value r = Some (Rejected (JsError "no assets")) /\
  getCurrentScene (world r) = None /\ stage (world r) = [] /\
  isTransitioning (world r) = false /\
  exists old,
    getCurrentScene w = Some old /\
    lifecycle (actions r) = [RemoveChild (container old); New "OverworldScene"].
Proof.
  intros throws w r.
  apply (constructor_throw_after_unload sample_clock throws w
           (mkFrame "overworld" "OverworldScene" 300 UnloadAwait)).
  - exists leaving_menu. reflexivity.
  - vm_compute. reflexivity.
  - reflexivity.
  - vm_compute. reflexivity.
Defined.

(** X10, for a player of level 1 with 950 points who gains 100. *)
Lemma addExperience_level_witness :
  let p := PlayerStore.mkProfile 1 1 "ash" "Ash" "Ash" 1 950 10 None in
  let st := PlayerStore.setProfile p PlayerStore.initial in
  PlayerStore.addExperience 100 st =
  PlayerStore.setProfile
    (PlayerStore.mkProfile 1 1 "ash" "Ash" "Ash" 2 1050 10 None)
    PlayerStore.initial.
Proof.
  intros p st.
  destruct (addExperience_level 100 st p eq_refl)
    as (_ & _ & p' & Hst & Hp' & Hxp & Hlvl & _);
    [split; reflexivity..|].
  rewrite Hst, Hp', Hlvl, Hxp. reflexivity.
Defined.

(** X11, for the same player: 100 points then 900, or 1000 at once. *)
Lemma addExperience_add_witness :
  let p := PlayerStore.mkProfile 1 1 "ash" "Ash" "Ash" 1 950 10 None in
  let st := PlayerStore.setProfile p PlayerStore.initial in
  PlayerStore.addExperience 900 (PlayerStore.addExperience 100 st) =
  PlayerStore.addExperience (100 + 900) st /\
  PlayerStore.number_add (PlayerStore.number_add 950 100) 900 = 1950%Z /\
  PlayerStore.number_add 950 (PlayerStore.number_add 100 900) = 1950%Z.
Proof.
  intros p st.
  destruct (addExperience_add 100 900 st) as [Hst Hsum].
  - discriminate.
  - discriminate.
  - split; reflexivity.
  - intros q [= <-]. split; split; reflexivity.
  - split; [exact Hst|]. exact (Hsum p eq_refl).
Defined.

(** X16, for a logout that the network fails: the token survives. *)
Lemma logout_then_reload_witness :
  let st := ApiClient.setToken "secret" (ApiClient.new_ApiClient ∅) in
  let o := ApiClient.FetchRejects
             (ApiClient.ErrorNamed "TypeError" "Failed to fetch") in
  let s' := fst (AuthStore.logout o AuthStore.initial st) in
  let st' := snd (AuthStore.logout o AuthStore.initial st) in
  AuthStore.isAuthenticated s' = false /\
  AuthStore.isAuthenticated
    (AuthStore.loadTokenFromStorage AuthStore.initial
       (ApiClient.new_ApiClient (ApiClient.localStorage st'))) = true.
Proof.
  intros st o s' st'.
  destruct (logout_then_reload o AuthStore.initial st)
    as (Hout & _ & Hreload).
  - unfold ApiClient.in_sync. vm_compute. reflexivity.
  - split; [exact Hout|]. apply Hreload. split.
    + eexists. reflexivity.
    + intros status data H. discriminate H.
Defined.

(** X18, for a player spritesheet without data. *)
Lemma loadTexture_after_loadSpriteSheet_witness :
  let r := AssetLoader.loadSpriteSheet "player" "/assets/player/walk.png"
             None (inr 7) (inr EmptyString) None ∅ in
  AssetLoader.loadTexture "player" "/assets/player/idle.png" (inr 8)
                          (snd (fst r)) =
  (inr (AssetLoader.SpritesheetAsset 7 None), snd (fst r), []).
Proof.
  intro r.
  apply (loadTexture_after_loadSpriteSheet "player" "/assets/player/walk.png"
           "/assets/player/idle.png" None (inr 8) 7 (inr EmptyString) None ∅
           (AssetLoader.SpritesheetAsset 7 None)).
  - reflexivity.
  - reflexivity.
Defined.

(** X19, for a texture that loads. *)
Lemma loadTexture_first_witness :
  let r := AssetLoader.loadTexture "grass" "/assets/grass/1.png" (inr 3) ∅ in
  r = (inr (AssetLoader.TextureAsset 3),
       <["grass"%string := AssetLoader.TextureAsset 3]> ∅,
       [AssetLoader.AssetsLoad "/assets/grass/1.png"]) /\
  AssetLoader.hasAsset "grass" (snd (fst r)) = true /\
  AssetLoader.getAsset "grass" (snd (fst r)) =
    Some (AssetLoader.TextureAsset 3) /\
  AssetLoader.loadTexture "grass" "/assets/grass/2.png" (inr 4) (snd (fst r)) =
    (inr (AssetLoader.TextureAsset 3), snd (fst r), []).
Proof.
  intro r.
  apply (loadTexture_first "grass" "/assets/grass/1.png" "/assets/grass/2.png"
           (inr 3) (inr 4) ∅).
  reflexivity.
Defined.

(** X20, for two loads of the grass. *)
Lemma overlapping_loads_witness :
  let end1 := AssetLoader.loadTexture_end "grass" (inr 3) ∅ in
  let end2 := AssetLoader.loadTexture_end "grass" (inr 4) (snd (fst end1)) in
  fst (fst end1) = inr (AssetLoader.TextureAsset 3) /\
  fst (fst end2) = inr (AssetLoader.TextureAsset 4) /\
  AssetLoader.getAsset "grass" (snd (fst end2)) =
    Some (AssetLoader.TextureAsset 4).
Proof.
  intros end1 end2.
  destruct (overlapping_loads "grass" "/assets/grass/1.png"
              "/assets/grass/2.png" 3 4 ∅)
    as (_ & _ & H1 & H2 & H3 & _); [reflexivity|].
  repeat split; assumption.
Defined.

(** X21, for two textures that end in the other order. *)
Lemma loadMultiple_caches_all_witness :
  AssetLoader.hasAsset "grass"
    (AssetLoader.complete
       [("player"%string, inr (AssetLoader.TextureAsset 2));
        ("grass"%string, inr (AssetLoader.TextureAsset 1))] ∅) = true.
Proof.
  apply (loadMultiple_caches_all ["grass"; "player"]%string).
  - vm_compute. apply perm_swap.
  - reflexivity.
  - left. reflexivity.
Defined.

(** X22, after four clicks on the choices of question 1. *)
Lemma selections_have_no_duplicates_witness :
  List.NoDup [20; 10]%Z.
Proof.
  apply (selections_have_no_duplicates
           [(1, 10, true); (1, 20, true); (1, 10, true); (1, 10, true)]%Z 1%Z).
  vm_compute. reflexivity.
Defined.

(** X26, for a result whose coins are negative. *)
Lemma rewards_never_take_away_witness :
  let p := PlayerStore.mkProfile 1 1 "ash" "Ash" "Ash" 1 950 10 None in
  let st := PlayerStore.setProfile p PlayerStore.initial in
  exists p',
    PlayerStore.profile (QuizScene.give_rewards 100 (-5) st) = Some p' /\
    (950 <= PlayerStore.experience_points p')%Z /\
    (10 <= PlayerStore.coins p')%Z /\
    (1 <= PlayerStore.level p')%Z.
Proof.
  intros p st. apply (rewards_never_take_away 100 (-5) st p). reflexivity.
Defined.

(** ** The animated player and the game engine *)

Section PlayerFacts.
Import AnimatedPlayer.

Lemma max_lower (a b : Q) : (a <= max a b)%Q.
Proof.
  unfold max. destruct (Qle_bool a b) eqn:E.
  - now apply Qle_bool_iff.
  - apply Qle_refl.
Qed.

Lemma clamp_upper (a b v : Q) : (a <= b)%Q -> (max a (min b v) <= b)%Q.
Proof.
  intros Hab. unfold max, min.
  destruct (Qle_bool b v) eqn:E1.
  - destruct (Qle_bool a b); [apply Qle_refl|exact Hab].
  - assert (Hvb : (v <= b)%Q).
    { apply Qlt_le_weak, Qnot_le_lt. intros H.
      apply Qle_bool_iff in H. congruence. }
    destruct (Qle_bool a v); [exact Hvb|exact Hab].
Qed.

(** X27: after every [update] the player is on the screen: whatever keys
    are pressed and wherever it was, its centre is at least a radius (half
    the width of its sprite) from the left and the top, and, on a screen
    that is at least as wide and as high as the sprite is wide, at least a
    radius from the right and the bottom too. *)
Theorem player_stays_on_screen (keys : string -> bool)
        (screenWidth screenHeight width : Q) (p : Player) :
  let radius := (width / 2)%Q in
  let p' := update keys screenWidth screenHeight width p in
  (radius <= x p')%Q /\ (radius <= y p')%Q /\
  ((radius <= screenWidth - radius)%Q -> (x p' <= screenWidth - radius)%Q) /\
  ((radius <= screenHeight - radius)%Q -> (y p' <= screenHeight - radius)%Q).
Proof.
  cbv zeta. unfold update. cbn [x y].
  split; [apply max_lower|]. split; [apply max_lower|].
  split; apply clamp_upper.
Qed.

End PlayerFacts.

Section GameEngineFacts.
Import GameEngine.
Local Open Scope Z_scope.

Lemma calls_without_pause (cs : list Call) (s : GameState) :
  pauses cs = false -> isRunning s = (0 <? lives s) ->
  lives (calls cs s) = lives s - lives_taken cs /\
  isRunning (calls cs s) = (0 <? lives (calls cs s)).
Proof.
  revert s. induction cs as [|c cs IH]; intros s Hp Hs; cbn [calls call].
  - cbn. split; [lia|exact Hs].
  - destruct c as [points| |]; cbn in Hp; try discriminate.
    + destruct (IH (incrementScore points s) Hp Hs) as [H1 H2].
      split; [exact H1|exact H2].
    + assert (Hs' : isRunning (decrementLives s) =
                    (0 <? lives (decrementLives s))).
      { unfold decrementLives. cbn. rewrite Hs.
        destruct (Z.leb_spec (lives s - 1) 0), (Z.ltb_spec 0 (lives s - 1)),
          (Z.ltb_spec 0 (lives s)); try reflexivity; lia. }
      destruct (IH (decrementLives s) Hp Hs') as [H1 H2].
      split; [|exact H2]. change (call DecrementLives s) with (decrementLives s).
      rewrite H1. cbn [lives_taken decrementLives lives]. lia.
Qed.

(** X28: as long as the pause is not toggled, the engine runs exactly
    while there are lives left: from the start, with its three lives, it
    stops at the third [decrementLives] and not before. [togglePause] does
    not look at the lives: toggled after the game is over, it sets the
    engine running again with no life left. *)
Theorem engine_runs_while_lives_left (cs : list Call) :
  pauses cs = false ->
  lives (calls cs initial) = 3 - lives_taken cs /\
  (isRunning (calls cs initial) = true <-> lives_taken cs < 3) /\
  isRunning (togglePause (calls (cs ++ [DecrementLives; DecrementLives;
                                        DecrementLives]) initial)) = true /\
  lives (togglePause (calls (cs ++ [DecrementLives; DecrementLives;
                                    DecrementLives]) initial)) <= 0.
Proof.
  intros Hp.
  assert (Hge : forall l, 0 <= lives_taken l).
  { induction l as [|[]]; cbn; lia. }
  assert (Happ : forall l1 l2, lives_taken (l1 ++ l2) =
                               lives_taken l1 + lives_taken l2).
  { induction l1 as [|[] l1 IH]; intros l2; cbn; rewrite ?IH; lia. }
  assert (Hpapp : pauses (cs ++ [DecrementLives; DecrementLives;
                                 DecrementLives]) = false).
  { clear -Hp. induction cs as [|[] cs IH]; cbn in *; auto. }
  destruct (calls_without_pause cs initial Hp eq_refl) as [H1 H2].
  destruct (calls_without_pause _ initial Hpapp eq_refl) as [H3 H4].
  rewrite Happ in H3. cbn in H1, H3.
  split; [exact H1|]. split.
  - rewrite H2, H1. cbn. rewrite Z.ltb_lt. lia.
  - unfold togglePause. cbn [isRunning lives]. rewrite H4, H3.
    specialize (Hge cs). split; [|lia].
    destruct (Z.ltb_spec 0 (3 - (lives_taken cs + (1 + (1 + (1 + 0))))));
      [lia|reflexivity].
Qed.

End GameEngineFacts.

(** X28, for a score and three lost lives. *)
Lemma engine_runs_while_lives_left_witness :
  let cs := [GameEngine.IncrementScore 10; GameEngine.DecrementLives;
             GameEngine.DecrementLives; GameEngine.DecrementLives] in
  GameEngine.lives (GameEngine.calls cs GameEngine.initial) = 0%Z /\
  ~ GameEngine.isRunning (GameEngine.calls cs GameEngine.initial) = true.
Proof.
  intro cs.
  destruct (engine_runs_while_lives_left cs eq_refl) as (Hl & Hr & _).
  split; [exact Hl|]. rewrite Hr. cbn. lia.
Defined.
